(** * RMA authorization challenge-response (common/rma_auth.c)

    A shallow embedding of the challenge/response authenticator of
    [common/rma_auth.c] and the properties of its two public operations,
    [rma_create_challenge] and [rma_try_authcode], and of the vendor
    command handlers [get_challenge], [process_response] and
    [rma_challenge_response] built on them.

    Bytes and characters are integers in [0, 256); buffer sizes are
    natural numbers; the microsecond clock is an unsigned 64-bit
    integer whose wrap-around is written out. *)

From Stdlib Require Import String Ascii ZArith List Bool Lia.
Import ListNotations.
Open Scope Z_scope.

(** ** C library helpers *)

Definition uint8 (z : Z) : Z := z mod 256.
Definition uint64 (z : Z) : Z := z mod 2 ^ 64.
Definition sint32 (z : Z) : Z := (z + 2 ^ 31) mod 2 ^ 32 - 2 ^ 31.

(** [memset(dest, c, n)] on a buffer held as a list. *)
Definition memset (dest : list Z) (c : Z) (n : nat) : list Z :=
  repeat c n ++ skipn n dest.

(** [memcpy(dest, src, n)]: the first [n] bytes of [src] replace the
    first [n] bytes of [dest]. *)
Definition memcpy (dest src : list Z) (n : nat) : list Z :=
  firstn n src ++ skipn n dest.

(** [p[0] = v] through a byte pointer; nothing is written when the
    model's buffer is empty. *)
Definition store0 (p : list Z) (v : Z) : list Z :=
  match p with
  | [] => []
  | _ :: rest => uint8 v :: rest
  end.

(** Modelled from the spec: [safe_memcmp] (util.c is not part of the
    sources at hand).  The comparison runs over all [size] bytes and
    accumulates the differences, so that the result is zero exactly when
    the first [size] bytes agree.  A byte past the end of a list reads
    as 0 in the model. *)
Fixpoint safe_memcmp (s1 s2 : list Z) (size : nat) : Z :=
  match size with
  | O => 0
  | S n =>
      Z.lor (Z.lxor (nth 0 s1 0) (nth 0 s2 0))
            (safe_memcmp (tl s1) (tl s2) n)
  end.

(** ** Return codes *)

(** The members of [enum ec_error_list] that rma_auth.c uses. *)
Inductive ec_error_list : Type :=
  | EC_SUCCESS
  | EC_ERROR_UNKNOWN
  | EC_ERROR_TIMEOUT
  | EC_ERROR_INVAL
  | EC_ERROR_ACCESS_DENIED.

(** The members of [enum vendor_cmd_rc] that rma_auth.c uses. *)
Inductive vendor_cmd_rc : Type :=
  | VENDOR_RC_SUCCESS
  | VENDOR_RC_BOGUS_ARGS
  | VENDOR_RC_RESPONSE_TOO_BIG
  | VENDOR_RC_INTERNAL_ERROR.

Definition ec_eqb (a b : ec_error_list) : bool :=
  match a, b with
  | EC_SUCCESS, EC_SUCCESS
  | EC_ERROR_UNKNOWN, EC_ERROR_UNKNOWN
  | EC_ERROR_TIMEOUT, EC_ERROR_TIMEOUT
  | EC_ERROR_INVAL, EC_ERROR_INVAL
  | EC_ERROR_ACCESS_DENIED, EC_ERROR_ACCESS_DENIED => true
  | _, _ => false
  end.

(** ** Constants *)

(** Modelled from the spec: [SECOND] (timer.h is not part of the sources
    at hand).  The clock counts microseconds, as the use
    [.poll_timeout_us = SECOND] in baseboard/grunt/baseboard.c shows. *)
Definition SECOND : Z := 1000000.

(** Minimum time since system boot or last challenge before making a
    new one. *)
Definition CHALLENGE_INTERVAL : Z := 10 * SECOND.

(** Number of tries to properly enter auth code. *)
Definition MAX_AUTHCODE_TRIES : Z := 3.

(** Modelled from the spec: [RMA_AUTHCODE_CHARS] (rma_auth.h is not part
    of the sources at hand); the spec fixes it to 8. *)
Definition RMA_AUTHCODE_CHARS : nat := 8.

(** Modelled from the spec: [RMA_CHALLENGE_VERSION], currently 0. *)
Definition RMA_CHALLENGE_VERSION : Z := 0.

(** Modelled from the spec: [RMA_CHALLENGE_VKID_BYTE]; the high 4 bits
    carry the protocol version and the low 4 bits the server key
    identifier. *)
Definition RMA_CHALLENGE_VKID_BYTE (version keyid : Z) : Z :=
  uint8 (Z.lor (Z.shiftl version 4) (Z.land keyid 15)).

(** ** The challenge record *)

(** Modelled from the spec: [struct rma_challenge] (rma_auth.h is not
    part of the sources at hand).  The record is byte-packed, 64 bytes
    long: the version/key-id byte, 4 bytes of board id, 8 bytes of
    device id, the 32-byte ephemeral public key and 19 reserved zero
    bytes. *)
Record rma_challenge : Type := {
  version_key_id : Z;
  board_id : list Z;
  device_id : list Z;
  device_pub_key : list Z
}.

(** Modelled from the spec: the sizes of the fields of
    [struct rma_challenge] and of the record. *)
Definition sizeof_board_id : nat := 4.
Definition sizeof_device_id : nat := 8.
Definition sizeof_device_pub_key : nat := 32.
Definition sizeof_reserved : nat := 19.
Definition sizeof_rma_challenge : nat := 64.

(** The bytes of the record as [(uint8_t * )&c] sees them. *)
Definition challenge_bytes (c : rma_challenge) : list Z :=
  [version_key_id c] ++ board_id c ++ device_id c ++ device_pub_key c
    ++ repeat 0 sizeof_reserved.

(** [memset(&c, 0, sizeof(c))]. *)
Definition zero_challenge : rma_challenge :=
  {| version_key_id := 0;
     board_id := repeat 0 sizeof_board_id;
     device_id := repeat 0 sizeof_device_id;
     device_pub_key := repeat 0 sizeof_device_pub_key |}.

(** ** Console output *)

(** One [cprintf] call: its format string and its arguments. *)
Inductive cprintf_arg : Type :=
  | ArgStr (s : string)
  | ArgChar (c : Z)
  | ArgInt (n : Z).

Definition cprintf_call : Type := (string * list cprintf_arg)%type.

Definition CPRINTF (format : string) (args : list cprintf_arg) : cprintf_call :=
  (format, args).

(** [CPRINTF("%c", ch)], the call in the two printing loops of
    get_challenge. *)
Definition print_char (ch : Z) : cprintf_call := CPRINTF "%c" [ArgChar ch].

(** ** Base-32 encoding

    Modelled from the spec: the encoder of base32.c, which is not part
    of the sources at hand.  The definitions of this module follow the
    spec's description of [base32_encode]. *)

Module Base32.

(** RFC 4648 alphabet. *)
Definition base32_map : list Z :=
  map (fun a => Z.of_nat (nat_of_ascii a))
    (list_ascii_of_string "ABCDEFGHIJKLMNOPQRSTUVWXYZ234567").

Definition base32_char (sym : Z) : Z := nth (Z.to_nat sym) base32_map 0.

(** The bits of a byte, most significant first. *)
Definition byte_bits (b : Z) : list bool :=
  map (Z.testbit b) [7; 6; 5; 4; 3; 2; 1; 0].

Definition bits_of_bytes (src : list Z) : list bool :=
  flat_map byte_bits src.

(** Value of a bit string read most significant bit first. *)
Definition bits_value (bits : list bool) : Z :=
  fold_left (fun acc (b : bool) => 2 * acc + (if b then 1 else 0)) bits 0.

(** A 5-bit symbol; a final group of fewer than 5 bits is completed
  with zero bits on the right. *)
Definition symbol_of_bits (bits : list bool) : Z :=
  bits_value (firstn 5 (bits ++ repeat false 5)).

(** [n] symbols taken from the front of [bits]. *)
Fixpoint symbols (n : nat) (bits : list bool) : list Z :=
  match n with
  | O => []
  | S n' => symbol_of_bits (firstn 5 bits) :: symbols n' (skipn 5 bits)
  end.

(** The data symbols of the first [srclen_bits] bits of [src]. *)
Definition data_symbols (src : list Z) (srclen_bits : nat) : list Z :=
  symbols ((srclen_bits + 4) / 5) (firstn srclen_bits (bits_of_bytes src)).

Section Checksum.

(** The group checksum: a 5-bit symbol computed from the zero-based
    index of the group and the data symbols of the group.  The spec
    leaves the polynomial to the reference encoder, so the function
    is a parameter here. *)
Variable group_crc5 : nat -> list Z -> Z.

(** Emits the symbols of [syms] in order; [cur] holds, most recent
    first, the symbols of the group under way and [idx] its index.
    After [every] data symbols the checksum of the group follows; a
    final partial group is also followed by its checksum. *)
Fixpoint with_checksums (every idx : nat) (cur syms : list Z) : list Z :=
  match syms with
  | [] =>
      match cur with
      | [] => []
      | _ => [group_crc5 idx (rev cur)]
      end
  | s :: rest =>
      if (S (length cur) =? every)%nat
      then s :: group_crc5 idx (rev (s :: cur))
             :: with_checksums every (S idx) [] rest
      else s :: with_checksums every idx (s :: cur) rest
  end.

(** The symbols written for [srclen_bits] bits of [src]. *)
Definition encoded_symbols (src : list Z) (srclen_bits add_crc_every : nat)
  : list Z :=
  let syms := data_symbols src srclen_bits in
  if (add_crc_every =? 0)%nat then syms
  else with_checksums add_crc_every 0 [] syms.

(** Modelled from the spec: [base32_encode] (base32.c is not part of
    the sources at hand).  Consumes exactly [srclen_bits] bits of
    [src], most significant bit first, and writes one character per
    5-bit symbol, a checksum symbol after every [add_crc_every] data
    symbols when that parameter is positive, and a terminating zero.
    Fails ([None]) when [dest], of [destlen] characters, cannot hold
    the symbols and the terminator; [dest] is then left as it
    was. *)
Definition base32_encode (dest : list Z) (destlen : nat) (src : list Z)
           (srclen_bits add_crc_every : nat) : option (list Z) :=
  let out := encoded_symbols src srclen_bits add_crc_every in
  if (destlen <? length out + 1)%nat then None
  else Some (memcpy dest (map base32_char out ++ [0]) (length out + 1)).

End Checksum.

End Base32.


(** ** Platform primitives and build configuration *)

(** The cryptographic primitives rma_auth.c calls: HMAC-SHA-256 (from
    dcrypto or from the software SHA-256, by CONFIG_DCRYPTO), X25519,
    and the group checksum of the base-32 encoder.  Their code is not
    part of the sources at hand; they are an interface here, with the
    sizes of their results as laws. *)
Class Primitives : Type := {
  hmac_SHA256 : list Z -> list Z -> list Z;
  hmac_SHA256_length :
    forall key msg, length (hmac_SHA256 key msg) = 32%nat;
  X25519 : list Z -> list Z -> list Z;
  X25519_length :
    forall priv pub, length (X25519 priv pub) = 32%nat;
  group_crc5 : nat -> list Z -> Z
}.

(** Compile-time configuration: the server key, the sizes of the two
    static buffers and the numeric values of the return codes (their
    headers are not part of the sources at hand). *)
Record rma_config : Type := {
  server_pub_key : list Z;
  server_key_id : Z;
  RMA_CHALLENGE_BUF_SIZE : nat;
  RMA_AUTHCODE_BUF_SIZE : nat;
  ec_value : ec_error_list -> Z;
  vendor_value : vendor_cmd_rc -> Z
}.

(** ** Module state *)

(** The four static variables of rma_auth.c. *)
Record rma_state : Type := {
  challenge : list Z;
  authcode : list Z;
  tries_left : Z;
  last_challenge_time : Z
}.

Definition set_challenge (st : rma_state) (v : list Z) : rma_state :=
  {| challenge := v; authcode := authcode st;
     tries_left := tries_left st;
     last_challenge_time := last_challenge_time st |}.

Definition set_authcode (st : rma_state) (v : list Z) : rma_state :=
  {| challenge := challenge st; authcode := v;
     tries_left := tries_left st;
     last_challenge_time := last_challenge_time st |}.

Definition set_tries_left (st : rma_state) (v : Z) : rma_state :=
  {| challenge := challenge st; authcode := authcode st;
     tries_left := v;
     last_challenge_time := last_challenge_time st |}.

Definition set_last_challenge_time (st : rma_state) (v : Z) : rma_state :=
  {| challenge := challenge st; authcode := authcode st;
     tries_left := tries_left st;
     last_challenge_time := v |}.

(** What one call of [rma_create_challenge] obtains from the rest of the
    system: the clock, the board id (the 4 bytes of [bid.type], or
    [None] when [read_board_id] reports an error), the chip's unique id
    (its size is the length of the list) and the key pair
    [X25519_keypair] generates, public key first. *)
Record create_env : Type := {
  get_time : Z;
  read_board_id : option (list Z);
  system_get_chip_unique_id : list Z;
  X25519_keypair : list Z * list Z
}.

Section RmaAuth.

Context {prim : Primitives}.
Variable cfg : rma_config.

Definition sizeof_challenge : nat := RMA_CHALLENGE_BUF_SIZE cfg.
Definition sizeof_authcode : nat := RMA_AUTHCODE_BUF_SIZE cfg.

(** Static storage is zero-initialised. *)
Definition initial_state : rma_state :=
  {| challenge := repeat 0 sizeof_challenge;
     authcode := repeat 0 sizeof_authcode;
     tries_left := 0;
     last_challenge_time := 0 |}.

(** Both branches of CONFIG_DCRYPTO leave the 32-byte HMAC-SHA-256 of
    [ch_size] bytes at [ch_ptr], keyed with [secret_size] bytes at
    [secret], in [hmac_out]. *)
Definition get_hmac_sha256 (secret : list Z) (secret_size : nat)
           (ch_ptr : list Z) (ch_size : nat) : list Z :=
  firstn 32 (hmac_SHA256 (firstn secret_size secret) (firstn ch_size ch_ptr)).

Definition hash_buffer (dest : list Z) (dest_size : nat)
           (buffer : list Z) (buf_size : nat) : list Z :=
  let temp := get_hmac_sha256 buffer buf_size buffer buf_size in
  memcpy dest temp dest_size.

(** Lines 98-124 of rma_create_challenge: the challenge record filled
    from the board id [bid_type], the unique device id and the fresh
    public key. *)
Definition fill_challenge (bid_type device_id0 pub : list Z) : rma_challenge :=
  let c := zero_challenge in
  let vkid := RMA_CHALLENGE_VKID_BYTE RMA_CHALLENGE_VERSION (server_key_id cfg) in
  let bid := memcpy (board_id c) bid_type sizeof_board_id in
  let unique_device_id_size := length device_id0 in
  let did :=
    if (unique_device_id_size <=? sizeof_device_id)%nat
    then memcpy (device_id c) device_id0 unique_device_id_size
    else hash_buffer (device_id c) sizeof_device_id
                     device_id0 unique_device_id_size in
  let dpk := memcpy (device_pub_key c) pub sizeof_device_pub_key in
  {| version_key_id := vkid; board_id := bid;
     device_id := did; device_pub_key := dpk |}.

Definition rma_create_challenge (st : rma_state) (e : create_env)
  : ec_error_list * rma_state :=
  (* Clear the current challenge and authcode, if any *)
  let st := set_challenge st (memset (challenge st) 0 sizeof_challenge) in
  let st := set_authcode st (memset (authcode st) 0 sizeof_authcode) in
  (* Rate limit challenges *)
  let t := get_time e in
  if uint64 (t - last_challenge_time st) <? CHALLENGE_INTERVAL
  then (EC_ERROR_TIMEOUT, st)
  else
    let st := set_last_challenge_time st t in
    match read_board_id e with
    | None => (EC_ERROR_UNKNOWN, st)
    | Some bid_type =>
        let (pub, temp) := X25519_keypair e in
        let c := fill_challenge bid_type (system_get_chip_unique_id e) pub in
        let cptr := challenge_bytes c in
        (* Encode the challenge *)
        match Base32.base32_encode group_crc5 (challenge st) sizeof_challenge
                cptr (8 * sizeof_rma_challenge) 9 with
        | None => (EC_ERROR_UNKNOWN, st)
        | Some ch =>
            let st := set_challenge st ch in
            (* Calculate the shared secret *)
            let secret := firstn 32 (X25519 temp (server_pub_key cfg)) in
            let temp := get_hmac_sha256 secret 32 (skipn 1 cptr)
                                        (sizeof_rma_challenge - 1) in
            match Base32.base32_encode group_crc5 (authcode st)
                    sizeof_authcode temp (RMA_AUTHCODE_CHARS * 5) 0 with
            | None => (EC_ERROR_UNKNOWN, st)
            | Some ac =>
                let st := set_authcode st ac in
                (EC_SUCCESS, set_tries_left st MAX_AUTHCODE_TRIES)
            end
        end
    end.

Definition rma_get_challenge (st : rma_state) : list Z := challenge st.

Definition rma_try_authcode (st : rma_state) (code : list Z)
  : ec_error_list * rma_state :=
  (* Fail if out of tries *)
  if tries_left st =? 0 then (EC_ERROR_ACCESS_DENIED, st)
  (* Fail if auth code has not been calculated yet. *)
  else if nth 0 (authcode st) 0 =? 0 then (EC_ERROR_ACCESS_DENIED, st)
  else
    let (rv, st) :=
      if negb (safe_memcmp (authcode st) code RMA_AUTHCODE_CHARS =? 0)
      then (* Mismatch *)
        (EC_ERROR_INVAL, set_tries_left st (sint32 (tries_left st - 1)))
      else (EC_SUCCESS, set_tries_left st 0) in
    (* Clear challenge and response if out of tries *)
    let st :=
      if tries_left st =? 0
      then set_authcode
             (set_challenge st (memset (challenge st) 0 sizeof_challenge))
             (memset (authcode st) 0 sizeof_authcode)
      else st in
    (rv, st).

(** ** Vendor command handlers *)

(** What a handler leaves behind: its return value, the command buffer,
    the reply size and the console output, in order. *)
Record vendor_result : Type := {
  vr_rc : Z;
  vr_buf : list Z;
  vr_size : nat;
  vr_console : list cprintf_call
}.

Definition get_challenge (st : rma_state) (e : create_env)
           (buf : list Z) (buf_size : nat) : vendor_result * rma_state :=
  if (buf_size <? sizeof_challenge)%nat then
    let buf := store0 buf (vendor_value cfg VENDOR_RC_RESPONSE_TOO_BIG) in
    ({| vr_rc := nth 0 buf 0; vr_buf := buf; vr_size := 1;
        vr_console := [] |}, st)
  else
    let (rv, st) := rma_create_challenge st e in
    if negb (ec_eqb rv EC_SUCCESS) then
      let buf := store0 buf (ec_value cfg rv) in
      ({| vr_rc := nth 0 buf 0; vr_buf := buf; vr_size := 1;
          vr_console := [] |}, st)
    else
      let buf_size := (sizeof_challenge - 1)%nat in
      let buf := memcpy buf (rma_get_challenge st) buf_size in
      let out :=
        [CPRINTF "%s: generated challenge:\n" [ArgStr "get_challenge"]]
        ++ map print_char (firstn buf_size buf)
        ++ [CPRINTF "\n" []]
        ++ [CPRINTF "%s: expected authcode: " [ArgStr "get_challenge"]]
        ++ map print_char (firstn RMA_AUTHCODE_CHARS (authcode st))
        ++ [CPRINTF "\n" []] in
      ({| vr_rc := vendor_value cfg VENDOR_RC_SUCCESS; vr_buf := buf;
          vr_size := buf_size; vr_console := out |}, st).

Definition process_response (st : rma_state) (buf : list Z)
           (input_size : nat) : vendor_result * rma_state :=
  if negb (input_size =? RMA_AUTHCODE_CHARS)%nat then
    let out := [CPRINTF "%s: authcode size %d\n"
                        [ArgStr "process_response";
                         ArgInt (Z.of_nat input_size)]] in
    let buf := store0 buf (vendor_value cfg VENDOR_RC_BOGUS_ARGS) in
    ({| vr_rc := nth 0 buf 0; vr_buf := buf; vr_size := 1;
        vr_console := out |}, st)
  else
    let (rv, st) := rma_try_authcode st buf in
    if ec_eqb rv EC_SUCCESS then
      ({| vr_rc := vendor_value cfg VENDOR_RC_SUCCESS; vr_buf := buf;
          vr_size := 0;
          vr_console := [CPRINTF "%s: success!\n"
                                 [ArgStr "process_response"]] |}, st)
    else
      let buf := store0 buf (vendor_value cfg VENDOR_RC_INTERNAL_ERROR) in
      ({| vr_rc := nth 0 buf 0; vr_buf := buf; vr_size := 1;
          vr_console := [CPRINTF "%s: authcode mismatch\n"
                                 [ArgStr "process_response"]] |}, st).

(** Handler of VENDOR_CC_RMA_CHALLENGE_RESPONSE; [response_size] is the
    room the caller offers for the reply. *)
Definition rma_challenge_response (st : rma_state) (e : create_env)
           (buf : list Z) (input_size response_size : nat)
  : vendor_result * rma_state :=
  if (input_size =? 0)%nat
  then get_challenge st e buf response_size
  else process_response st buf input_size.

(** ** Runs of the two public operations *)

Inductive call : Type :=
  | Create (e : create_env)
  | Try (code : list Z).

Definition is_create (c : call) : bool :=
  match c with Create _ => true | Try _ => false end.

Definition is_try (c : call) : bool :=
  match c with Create _ => false | Try _ => true end.

Definition step (st : rma_state) (c : call) : ec_error_list * rma_state :=
  match c with
  | Create e => rma_create_challenge st e
  | Try code => rma_try_authcode st code
  end.

(** The calls of a run paired with their return codes, and the state
    the run ends in. *)
Fixpoint run (st : rma_state) (calls : list call)
  : list (call * ec_error_list) * rma_state :=
  match calls with
  | [] => ([], st)
  | c :: rest =>
      let (rv, st1) := step st c in
      let (tr, st2) := run st1 rest in
      ((c, rv) :: tr, st2)
  end.

(** The part of a trace that precedes the first successful
    [rma_create_challenge]. *)
Fixpoint until_create_succeeds (tr : list (call * ec_error_list))
  : list (call * ec_error_list) :=
  match tr with
  | [] => []
  | (Create _, EC_SUCCESS) :: _ => []
  | x :: rest => x :: until_create_succeeds rest
  end.

(** States reachable from the initial state by calls of the two public
    operations. *)
Inductive reachable : rma_state -> Prop :=
  | reachable_initial : reachable initial_state
  | reachable_step st c :
      reachable st -> reachable (snd (step st c)).

(** The buffers of a state have their declared sizes. *)
Definition state_wf (st : rma_state) : Prop :=
  length (challenge st) = sizeof_challenge /\
  length (authcode st) = sizeof_authcode.

(** The board id has 4 bytes and the public key 32. *)
Definition env_wf (e : create_env) : Prop :=
  match read_board_id e with
  | Some bid_type => length bid_type = sizeof_board_id
  | None => True
  end /\
  length (fst (X25519_keypair e)) = sizeof_device_pub_key.

(** The state a rate-limited call leaves: both buffers cleared, the
    counters as they were. *)
Definition cleared (st : rma_state) : rma_state :=
  {| challenge := memset (challenge st) 0 sizeof_challenge;
     authcode := memset (authcode st) 0 sizeof_authcode;
     tries_left := tries_left st;
     last_challenge_time := last_challenge_time st |}.


(** The authcode string is empty: its first byte is the terminator. *)
Definition authcode_empty (st : rma_state) : bool :=
  nth 0 (authcode st) 0 =? 0.

End RmaAuth.

(** ** A concrete platform for evaluating the model

    Deterministic stand-ins for the primitives, of the right sizes, and
    a configuration whose challenge buffer holds the encoded record. *)
Module TestPlatform.

Definition sum_bytes (l : list Z) : Z := fold_left Z.add l 0.

Definition test_hmac (key msg : list Z) : list Z :=
  map (fun i => (31 * sum_bytes key + 17 * sum_bytes msg
                 + 7 * Z.of_nat i + nth i msg 0 + 1) mod 256)
      (seq 0 32).

Definition test_x25519 (priv pub : list Z) : list Z :=
  map (fun i => (3 * nth i priv 0 + 5 * nth i pub 0 + Z.of_nat i) mod 256)
      (seq 0 32).

Definition test_crc5 (idx : nat) (syms : list Z) : Z :=
  (fold_left Z.lxor syms (Z.of_nat idx) + 1) mod 32.

#[export] Instance test_primitives : Primitives.
Proof.
  refine {| hmac_SHA256 := test_hmac;
            X25519 := test_x25519;
            group_crc5 := test_crc5 |}.
  - intros key msg. unfold test_hmac.
    rewrite length_map, length_seq. reflexivity.
  - intros priv pub. unfold test_x25519.
    rewrite length_map, length_seq. reflexivity.
Defined.

Definition test_ec_value (rv : ec_error_list) : Z :=
  match rv with
  | EC_SUCCESS => 0
  | EC_ERROR_UNKNOWN => 1
  | EC_ERROR_TIMEOUT => 4
  | EC_ERROR_INVAL => 5
  | EC_ERROR_ACCESS_DENIED => 7
  end.

Definition test_vendor_value (rc : vendor_cmd_rc) : Z :=
  match rc with
  | VENDOR_RC_SUCCESS => 0
  | VENDOR_RC_BOGUS_ARGS => 1
  | VENDOR_RC_RESPONSE_TOO_BIG => 5
  | VENDOR_RC_INTERNAL_ERROR => 6
  end.

Definition test_cfg : rma_config :=
  {| server_pub_key := repeat 1 32;
     server_key_id := 3;
     RMA_CHALLENGE_BUF_SIZE := 116;
     RMA_AUTHCODE_BUF_SIZE := 9;
     ec_value := test_ec_value;
     vendor_value := test_vendor_value |}.

(** The happy-path device: unique id 01..08, board id 0A 0B 0C 0D. *)
Definition test_env (t : Z) (seed : Z) : create_env :=
  {| get_time := t;
     read_board_id := Some [10; 11; 12; 13];
     system_get_chip_unique_id := [1; 2; 3; 4; 5; 6; 7; 8];
     X25519_keypair :=
       (map (fun i => (seed + 2 * Z.of_nat i) mod 256) (seq 0 32),
        map (fun i => (seed + 3 * Z.of_nat i + 1) mod 256) (seq 0 32)) |}.

Definition env_100s : create_env := test_env (100 * SECOND) 7.
Definition env_105s : create_env := test_env (105 * SECOND) 9.

(** The state after a first challenge issued 100 s after boot. *)
Definition st_armed : rma_state :=
  snd (rma_create_challenge test_cfg (initial_state test_cfg) env_100s).

(** The state after a second request 5 s later. *)
Definition st_limited : rma_state :=
  snd (rma_create_challenge test_cfg st_armed env_105s).

(** Three wrong guesses, AAAAAAAA each time, after the first challenge. *)
Definition wrong_code : list Z := repeat 65 8.

Definition st_wrong1 : rma_state :=
  snd (rma_try_authcode test_cfg st_armed wrong_code).
Definition st_wrong2 : rma_state :=
  snd (rma_try_authcode test_cfg st_wrong1 wrong_code).
Definition st_wrong3 : rma_state :=
  snd (rma_try_authcode test_cfg st_wrong2 wrong_code).


End TestPlatform.

(** ** Clock readings along a run *)

(** The clock readings of the [rma_create_challenge] calls of a run
    never go back: each is at least [t0], at least the reading before
    it, and fits 64 bits. *)
Fixpoint clock_ordered (t0 : Z) (calls : list call) : Prop :=
  match calls with
  | [] => True
  | Create e :: rest =>
      t0 <= get_time e < 2 ^ 64 /\ clock_ordered (get_time e) rest
  | Try _ :: rest => clock_ordered t0 rest
  end.

(** A call of a trace that is a successful [rma_create_challenge] was
    made at least CHALLENGE_INTERVAL after [t0]. *)
Definition created_after (t0 : Z) (x : call * ec_error_list) : Prop :=
  match x with
  | (Create e, EC_SUCCESS) => t0 + CHALLENGE_INTERVAL <= get_time e
  | _ => True
  end.

(** A [rma_try_authcode] call of a trace was refused. *)
Definition try_denied_in (x : call * ec_error_list) : Prop :=
  is_try (fst x) = true -> snd x = EC_ERROR_ACCESS_DENIED.

(** The state [rma_try_authcode] leaves when the session ends: both
    buffers zeroed and no try left. *)
Definition session_closed (cfg : rma_config) (st : rma_state) : rma_state :=
  {| challenge := repeat 0 (sizeof_challenge cfg);
     authcode := repeat 0 (sizeof_authcode cfg);
     tries_left := 0;
     last_challenge_time := last_challenge_time st |}.

(** More inputs for concrete runs. *)
Module TestInputs.

Import TestPlatform.

(** A request 200 s after boot on a board whose id cannot be read. *)
Definition env_no_board_id : create_env :=
  {| get_time := 200 * SECOND;
     read_board_id := None;
     system_get_chip_unique_id := [1; 2; 3; 4; 5; 6; 7; 8];
     X25519_keypair := X25519_keypair env_100s |}.

Definition env_111s : create_env := test_env (111 * SECOND) 11.

(** A request whose clock reading lies before the last challenge. *)
Definition env_50s : create_env := test_env (50 * SECOND) 5.

(** The authcode of the first challenge in a 16-byte command buffer. *)
Definition right_code_buf : list Z :=
  firstn 8 (authcode st_armed) ++ repeat 170 8.

Definition wrong_code_buf : list Z := repeat 65 16.

End TestInputs.

(** ** The challenge record with its size left open *)

(** [struct rma_challenge] is declared in rma_auth.h, which is not part
    of the sources at hand, and rma_create_challenge uses its size only
    through [sizeof(c)].  Here the size is a parameter: the four fields
    take 45 bytes and [reserved] counts the bytes that follow them (19
    for the 64-byte record of the spec, 0 for a record that ends with
    its last field). *)
Definition sizeof_challenge_record (reserved : nat) : nat :=
  (1 + sizeof_board_id + sizeof_device_id + sizeof_device_pub_key
   + reserved)%nat.

Definition challenge_record_bytes (reserved : nat) (c : rma_challenge)
  : list Z :=
  [version_key_id c] ++ board_id c ++ device_id c ++ device_pub_key c
    ++ repeat 0 reserved.

Section RmaAuthSized.

Context {prim : Primitives}.
Variable cfg : rma_config.

(** rma_create_challenge (lines 77-145) for a record with [reserved]
    bytes after its fields: the same statements in the same order, with
    [sizeof(c)] read as [sizeof_challenge_record reserved]. *)
Definition rma_create_challenge_sized (reserved : nat)
           (st : rma_state) (e : create_env) : ec_error_list * rma_state :=
  (* Clear the current challenge and authcode, if any *)
  let st := set_challenge st (memset (challenge st) 0 (sizeof_challenge cfg)) in
  let st := set_authcode st (memset (authcode st) 0 (sizeof_authcode cfg)) in
  (* Rate limit challenges *)
  let t := get_time e in
  if uint64 (t - last_challenge_time st) <? CHALLENGE_INTERVAL
  then (EC_ERROR_TIMEOUT, st)
  else
    let st := set_last_challenge_time st t in
    match read_board_id e with
    | None => (EC_ERROR_UNKNOWN, st)
    | Some bid_type =>
        let (pub, temp) := X25519_keypair e in
        let c := fill_challenge cfg bid_type (system_get_chip_unique_id e)
                                pub in
        let cptr := challenge_record_bytes reserved c in
        (* Encode the challenge *)
        match Base32.base32_encode group_crc5 (challenge st)
                (sizeof_challenge cfg) cptr
                (8 * sizeof_challenge_record reserved) 9 with
        | None => (EC_ERROR_UNKNOWN, st)
        | Some ch =>
            let st := set_challenge st ch in
            (* Calculate the shared secret *)
            let secret := firstn 32 (X25519 temp (server_pub_key cfg)) in
            let temp := get_hmac_sha256 secret 32 (skipn 1 cptr)
                          (sizeof_challenge_record reserved - 1) in
            match Base32.base32_encode group_crc5 (authcode st)
                    (sizeof_authcode cfg) temp (RMA_AUTHCODE_CHARS * 5) 0 with
            | None => (EC_ERROR_UNKNOWN, st)
            | Some ac =>
                let st := set_authcode st ac in
                (EC_SUCCESS, set_tries_left st MAX_AUTHCODE_TRIES)
            end
        end
    end.

End RmaAuthSized.

(** ** The steps of the comparison *)



(** A configuration whose challenge buffer has RMA_CHALLENGE_BUF_SIZE =
    81 bytes, for a reply of 80 characters, and the first challenge of
    a device whose record has no byte after its fields. *)
Module TestRecord45.

Import TestPlatform.



End TestRecord45.

(** * Facts about the encoder *)

Section Base32Facts.

Import Base32.

Variable crc : nat -> list Z -> Z.

Lemma symbols_length (n : nat) (bits : list bool) :
  length (symbols n bits) = n.
Proof.
  revert bits. induction n as [|n IH]; intros bits; simpl.
  - reflexivity.
  - rewrite IH. reflexivity.
Qed.

Lemma byte_bits_length (b : Z) : length (byte_bits b) = 8%nat.
Proof. reflexivity. Qed.

Lemma bits_of_bytes_length (src : list Z) :
  length (bits_of_bytes src) = (8 * length src)%nat.
Proof.
  unfold bits_of_bytes.
  rewrite (flat_map_constant_length (c := 8%nat)).
  - lia.
  - intros b _. apply byte_bits_length.
Qed.

(** Only the bytes that hold the first [bits] bits take part. *)
Lemma data_symbols_prefix (src : list Z) (k bits : nat) :
  (bits <= 8 * k)%nat -> (k <= length src)%nat ->
  data_symbols src bits = data_symbols (firstn k src) bits.
Proof.
  intros Hbits Hk. unfold data_symbols. f_equal.
  rewrite <- (firstn_skipn k src) at 1.
  unfold bits_of_bytes. rewrite flat_map_app, firstn_app.
  fold (bits_of_bytes (firstn k src)).
  rewrite bits_of_bytes_length, length_firstn.
  replace (bits - 8 * Nat.min k (length src))%nat with 0%nat by lia.
  simpl. apply app_nil_r.
Qed.

Lemma symbol_of_bits_range (bits : list bool) :
  0 <= symbol_of_bits bits < 32.
Proof.
  unfold symbol_of_bits.
  assert (Hlen : length (firstn 5 (bits ++ repeat false 5)) = 5%nat).
  { rewrite length_firstn, length_app, repeat_length. lia. }
  destruct (firstn 5 (bits ++ repeat false 5))
    as [|b0 [|b1 [|b2 [|b3 [|b4 [|b5 l]]]]]]; try discriminate.
  destruct b0, b1, b2, b3, b4; vm_compute; split; congruence.
Qed.

Lemma symbols_range (n : nat) (bits : list bool) :
  Forall (fun s => 0 <= s < 32) (symbols n bits).
Proof.
  revert bits. induction n as [|n IH]; intros bits; simpl; constructor.
  - apply symbol_of_bits_range.
  - apply IH.
Qed.

(** Every symbol maps to a letter or digit of the alphabet, never to the
    terminator. *)
Lemma base32_char_alphabet (s : Z) :
  0 <= s < 32 -> In (base32_char s) base32_map /\ base32_char s <> 0.
Proof.
  intros Hs. unfold base32_char.
  assert (Hn : (Z.to_nat s < 32)%nat) by lia.
  revert Hn. generalize (Z.to_nat s) as n. intros n Hn.
  do 32 (destruct n as [|n];
         [vm_compute; split; [tauto | discriminate]|]).
  lia.
Qed.

Lemma with_checksums_cons_full (every idx : nat) (s : Z) (cur rest : list Z) :
  S (length cur) = every ->
  with_checksums crc every idx cur (s :: rest)
  = s :: crc idx (rev (s :: cur)) :: with_checksums crc every (S idx) [] rest.
Proof.
  intros Hfull. cbn [with_checksums].
  apply Nat.eqb_eq in Hfull. rewrite Hfull. reflexivity.
Qed.

Lemma with_checksums_cons_more (every idx : nat) (s : Z) (cur rest : list Z) :
  S (length cur) <> every ->
  with_checksums crc every idx cur (s :: rest)
  = s :: with_checksums crc every idx (s :: cur) rest.
Proof.
  intros Hmore. cbn [with_checksums].
  apply Nat.eqb_neq in Hmore. rewrite Hmore. reflexivity.
Qed.

(** A complete group: its data symbols, then its checksum. *)
Lemma with_checksums_group (every idx : nat) (g cur rest : list Z) :
  g <> [] -> (length cur + length g = every)%nat ->
  with_checksums crc every idx cur (g ++ rest)
  = g ++ crc idx (rev cur ++ g) :: with_checksums crc every (S idx) [] rest.
Proof.
  revert cur. induction g as [|s g IH]; intros cur Hne Hlen.
  - contradiction.
  - cbn [app length] in *. destruct g as [|s' g].
    + cbn [app length] in *.
      rewrite with_checksums_cons_full by lia. reflexivity.
    + rewrite with_checksums_cons_more by (cbn [length] in Hlen; lia).
      rewrite (IH (s :: cur)); [|discriminate | cbn [length] in *; lia].
      cbn [rev]. rewrite <- app_assoc. reflexivity.
Qed.

(** A final, shorter group is followed by its checksum too. *)
Lemma with_checksums_partial (every idx : nat) (g cur : list Z) :
  cur ++ g <> [] -> (length cur + length g < every)%nat ->
  with_checksums crc every idx cur g = g ++ [crc idx (rev cur ++ g)].
Proof.
  revert cur. induction g as [|s g IH]; intros cur Hne Hlen.
  - rewrite app_nil_r in *. destruct cur; [contradiction|]. reflexivity.
  - cbn [length] in Hlen.
    rewrite with_checksums_cons_more by lia.
    rewrite (IH (s :: cur)); [|discriminate | cbn [length]; lia].
    cbn [rev app]. rewrite <- app_assoc. reflexivity.
Qed.


Lemma skipn_group_head (every : nat) (g rest : list Z) (c : Z) :
  length g = every -> skipn (every + 1) (g ++ c :: rest) = rest.
Proof.
  intros <-. rewrite skipn_app.
  rewrite (skipn_all2 g) by lia.
  replace (length g + 1 - length g)%nat with 1%nat by lia.
  reflexivity.
Qed.

Lemma first_group_split (every idx : nat) (syms : list Z) :
  (0 < every)%nat -> (every <= length syms)%nat ->
  with_checksums crc every idx [] syms
  = firstn every syms
      ++ crc idx (firstn every syms)
      :: with_checksums crc every (S idx) [] (skipn every syms).
Proof.
  intros Hpos Hlen.
  rewrite <- (firstn_skipn every syms) at 1.
  rewrite with_checksums_group.
  - reflexivity.
  - intros Hnil. apply (f_equal (@length Z)) in Hnil.
    rewrite length_firstn in Hnil. cbn [length] in Hnil. lia.
  - rewrite length_firstn. cbn [length]. lia.
Qed.


(** The last group when the data do not fill it. *)
Lemma with_checksums_last_group (every idx k : nat) (syms : list Z) :
  (0 < every)%nat ->
  (every * k < length syms)%nat -> (length syms < every * (k + 1))%nat ->
  skipn ((every + 1) * k) (with_checksums crc every idx [] syms)
  = skipn (every * k) syms ++ [crc (idx + k) (skipn (every * k) syms)].
Proof.
  intros Hpos. revert idx syms.
  induction k as [|k IH]; intros idx syms Hlo Hhi.
  - rewrite !Nat.mul_0_r, Nat.add_0_r. cbn [skipn].
    apply with_checksums_partial.
    + cbn [app]. intros ->. cbn [length] in Hlo. lia.
    + cbn [length]. lia.
  - rewrite first_group_split by lia.
    replace ((every + 1) * S k)%nat
      with ((every + 1) * k + (every + 1))%nat by lia.
    rewrite <- skipn_skipn.
    rewrite skipn_group_head by (rewrite length_firstn; lia).
    rewrite IH by (rewrite length_skipn; lia).
    rewrite skipn_skipn.
    replace (every * k + every)%nat with (every * S k)%nat by lia.
    replace (S idx + k)%nat with (idx + S k)%nat by lia.
    reflexivity.
Qed.

(** The number of symbols written: one checksum per group begun. *)
Lemma with_checksums_length (every idx : nat) (syms cur : list Z) :
  (0 < every)%nat -> (length cur < every)%nat ->
  length (with_checksums crc every idx cur syms)
  = (length syms + (length cur + length syms + every - 1) / every)%nat.
Proof.
  intros Hpos. revert idx cur.
  induction syms as [|s rest IH]; intros idx cur Hcur.
  - destruct cur as [|c cur]; cbn [with_checksums length].
    + rewrite Nat.div_small by lia. reflexivity.
    + rewrite Nat.add_0_l.
      apply Nat.div_unique with (r := length cur); cbn [length] in *; lia.
  - destruct (Nat.eq_dec (S (length cur)) every) as [Hfull|Hmore].
    + rewrite with_checksums_cons_full by assumption. cbn [length].
      rewrite IH by (cbn [length]; lia). cbn [length].
      replace (length cur + S (length rest) + every - 1)%nat
        with (length rest + every - 1 + 1 * every)%nat by lia.
      rewrite Nat.div_add by lia.
      replace (0 + length rest + every - 1)%nat
        with (length rest + every - 1)%nat by lia.
      lia.
    + rewrite with_checksums_cons_more by assumption. cbn [length].
      rewrite IH by (cbn [length]; lia). cbn [length].
      replace (S (length cur) + length rest + every - 1)%nat
        with (length cur + S (length rest) + every - 1)%nat by lia.
      lia.
Qed.


Lemma encoded_symbols_plain (src : list Z) (bits : nat) :
  encoded_symbols crc src bits 0 = data_symbols src bits.
Proof. reflexivity. Qed.

(** What a successful [base32_encode] leaves in [dest]: the characters
    of the symbols, then the terminator. *)
Lemma base32_encode_text (dest out src : list Z) (n bits every : nat) :
  base32_encode crc dest n src bits every = Some out ->
  let text := map base32_char (encoded_symbols crc src bits every) in
  firstn (length text) out = text /\
  nth_error out (length text) = Some 0 /\
  (length text < n)%nat.
Proof.
  unfold base32_encode.
  destruct (_ <? _)%nat eqn:Hlt; [discriminate|].
  apply Nat.ltb_ge in Hlt. intros [= <-]. cbv zeta.
  set (syms := encoded_symbols crc src bits every) in *.
  unfold memcpy.
  assert (Hf : firstn (length syms + 1) (map base32_char syms ++ [0])
               = map base32_char syms ++ [0]).
  { apply firstn_all2. rewrite length_app, length_map. simpl. lia. }
  rewrite Hf, length_map. repeat split.
  - rewrite <- app_assoc, <- (length_map base32_char syms).
    rewrite firstn_app, firstn_all, Nat.sub_diag. simpl.
    apply app_nil_r.
  - rewrite <- app_assoc, <- (length_map base32_char syms).
    rewrite nth_error_app2 by lia. rewrite Nat.sub_diag. reflexivity.
  - lia.
Qed.

End Base32Facts.

(** * Properties *)

Section Properties.

Context {prim : Primitives}.
Variable cfg : rma_config.

Arguments Base32.base32_encode : simpl never.
Arguments get_hmac_sha256 : simpl never.
Arguments fill_challenge : simpl never.
Arguments challenge_bytes : simpl never.
Arguments memset : simpl never.
Arguments memcpy : simpl never.

(** Case split on the scrutinee of the outermost [match] of [H]. *)
Ltac case_in H :=
  match type of H with
  | context [match ?x with _ => _ end] => destruct x eqn:?
  end.

(** ** Buffers *)

Lemma memset_full (dest : list Z) (c : Z) (n : nat) :
  length dest = n -> memset dest c n = repeat c n.
Proof.
  intros Hlen. unfold memset.
  rewrite skipn_all2 by lia. apply app_nil_r.
Qed.

Lemma memset_length (dest : list Z) (c : Z) (n : nat) :
  length dest = n -> length (memset dest c n) = n.
Proof.
  intros Hlen. rewrite memset_full by assumption. apply repeat_length.
Qed.

Lemma memset_zero_head (dest : list Z) (n : nat) :
  nth 0 (memset dest 0 n) 0 = nth 0 dest 0 \/ nth 0 (memset dest 0 n) 0 = 0.
Proof.
  unfold memset. destruct n as [|n]; simpl; auto.
Qed.

Lemma uint64_small (z : Z) : 0 <= z < 2 ^ 64 -> uint64 z = z.
Proof. intros Hz. unfold uint64. apply Z.mod_small. exact Hz. Qed.

(** ** Case analysis of rma_create_challenge *)

Lemma create_rate_limited (st : rma_state) (e : create_env) :
  uint64 (get_time e - last_challenge_time st) < CHALLENGE_INTERVAL ->
  rma_create_challenge cfg st e = (EC_ERROR_TIMEOUT, cleared cfg st).
Proof.
  intros Hlt. unfold rma_create_challenge. simpl.
  apply Z.ltb_lt in Hlt. rewrite Hlt. reflexivity.
Qed.

(** A call that does not succeed leaves [tries_left] alone and the
    authcode cleared. *)
Lemma create_failure (st st' : rma_state) (e : create_env) (rv : ec_error_list) :
  rma_create_challenge cfg st e = (rv, st') ->
  rv <> EC_SUCCESS ->
  tries_left st' = tries_left st /\
  authcode st' = memset (authcode st) 0 (sizeof_authcode cfg).
Proof.
  unfold rma_create_challenge. simpl.
  destruct (uint64 _ <? CHALLENGE_INTERVAL).
  { intros [= <- <-] _. auto. }
  destruct (read_board_id e) as [bid|].
  2:{ intros [= <- <-] _. auto. }
  destruct (X25519_keypair e) as [pub temp].
  destruct (Base32.base32_encode _ _ _ _ _ _) as [ch|].
  2:{ intros [= <- <-] _. auto. }
  simpl.
  destruct (Base32.base32_encode _ _ _ _ _ _) as [ac|].
  - intros [= <- <-] Hne. contradiction.
  - intros [= <- <-] _. auto.
Qed.

(** What a successful call has done. *)
Lemma create_success (st st' : rma_state) (e : create_env) :
  rma_create_challenge cfg st e = (EC_SUCCESS, st') ->
  exists bid ch ac,
    read_board_id e = Some bid /\
    Base32.base32_encode group_crc5
      (memset (challenge st) 0 (sizeof_challenge cfg)) (sizeof_challenge cfg)
      (challenge_bytes
         (fill_challenge cfg bid (system_get_chip_unique_id e)
                         (fst (X25519_keypair e))))
      (8 * sizeof_rma_challenge) 9 = Some ch /\
    Base32.base32_encode group_crc5
      (memset (authcode st) 0 (sizeof_authcode cfg)) (sizeof_authcode cfg)
      (get_hmac_sha256
         (firstn 32 (X25519 (snd (X25519_keypair e)) (server_pub_key cfg))) 32
         (skipn 1 (challenge_bytes
                     (fill_challenge cfg bid (system_get_chip_unique_id e)
                                     (fst (X25519_keypair e)))))
         (sizeof_rma_challenge - 1))
      (RMA_AUTHCODE_CHARS * 5) 0 = Some ac /\
    st' = {| challenge := ch; authcode := ac;
             tries_left := MAX_AUTHCODE_TRIES;
             last_challenge_time := get_time e |}.
Proof.
  intros H. unfold rma_create_challenge in H. simpl in H.
  destruct (uint64 _ <? CHALLENGE_INTERVAL); [discriminate|].
  destruct (read_board_id e) as [bid|]; [|discriminate].
  destruct (X25519_keypair e) as [pub temp]. simpl in *.
  case_in H; [|discriminate].
  case_in H; [|discriminate].
  injection H as <-. eauto 8.
Qed.

Lemma create_tries_left (st : rma_state) (e : create_env) :
  tries_left (snd (rma_create_challenge cfg st e)) = tries_left st \/
  (fst (rma_create_challenge cfg st e) = EC_SUCCESS /\
   tries_left (snd (rma_create_challenge cfg st e)) = MAX_AUTHCODE_TRIES).
Proof.
  destruct (rma_create_challenge cfg st e) as [rv st'] eqn:Hc. simpl.
  destruct rv;
    try (left; eapply create_failure; [exact Hc | discriminate]).
  right. split; [reflexivity|].
  apply create_success in Hc. destruct Hc as (bid & ch & ac & _ & _ & _ & ->).
  reflexivity.
Qed.

(** ** Case analysis of rma_try_authcode *)

Lemma try_denied (st : rma_state) (code : list Z) :
  tries_left st = 0 ->
  rma_try_authcode cfg st code = (EC_ERROR_ACCESS_DENIED, st).
Proof.
  intros H0. unfold rma_try_authcode. rewrite H0. reflexivity.
Qed.

Lemma try_last_challenge_time (st : rma_state) (code : list Z) :
  last_challenge_time (snd (rma_try_authcode cfg st code))
  = last_challenge_time st.
Proof.
  unfold rma_try_authcode.
  destruct (tries_left st =? 0); [reflexivity|].
  destruct (nth 0 (authcode st) 0 =? 0); [reflexivity|].
  destruct (negb _); simpl.
  - destruct (sint32 _ =? 0); reflexivity.
  - reflexivity.
Qed.

(** A mismatch is reported only when a try was left, and it costs one. *)
Lemma try_invalid (st st' : rma_state) (code : list Z) :
  rma_try_authcode cfg st code = (EC_ERROR_INVAL, st') ->
  tries_left st <> 0 /\ tries_left st' = sint32 (tries_left st - 1).
Proof.
  unfold rma_try_authcode.
  destruct (tries_left st =? 0) eqn:Ht; [discriminate|].
  apply Z.eqb_neq in Ht.
  destruct (nth 0 (authcode st) 0 =? 0); [discriminate|].
  destruct (negb _); simpl.
  - destruct (sint32 _ =? 0); intros [= <-]; auto.
  - discriminate.
Qed.

Lemma sint32_small (z : Z) : - 2 ^ 31 <= z < 2 ^ 31 -> sint32 z = z.
Proof.
  intros Hz. unfold sint32. rewrite Z.mod_small; lia.
Qed.

(** ** Sizes of the buffers *)

Lemma base32_encode_length (dest out src : list Z) (n bits every : nat) :
  Base32.base32_encode group_crc5 dest n src bits every = Some out ->
  length dest = n -> length out = n.
Proof.
  unfold Base32.base32_encode.
  destruct (_ <? _)%nat eqn:Hlt; [discriminate|].
  apply Nat.ltb_ge in Hlt.
  intros [= <-] Hlen. unfold memcpy.
  rewrite length_app, length_firstn, length_skipn, length_app, length_map.
  simpl. lia.
Qed.

Lemma initial_state_wf : state_wf cfg (initial_state cfg).
Proof. split; apply repeat_length. Qed.

Lemma create_wf (st : rma_state) (e : create_env) :
  state_wf cfg st -> state_wf cfg (snd (rma_create_challenge cfg st e)).
Proof.
  intros [Hc Ha].
  destruct (rma_create_challenge cfg st e) as [rv st'] eqn:Hcall.
  unfold rma_create_challenge in Hcall. simpl in Hcall.
  pose proof (memset_length (challenge st) 0 _ Hc) as Hc0.
  pose proof (memset_length (authcode st) 0 _ Ha) as Ha0.
  repeat case_in Hcall; injection Hcall as <- <-; split; simpl; auto.
  all: try (eapply base32_encode_length; eassumption).
Qed.

Lemma try_wf (st : rma_state) (code : list Z) :
  state_wf cfg st -> state_wf cfg (snd (rma_try_authcode cfg st code)).
Proof.
  intros [Hc Ha]. unfold rma_try_authcode.
  destruct (tries_left st =? 0); [split; assumption|].
  destruct (nth 0 (authcode st) 0 =? 0); [split; assumption|].
  destruct (negb _); simpl.
  - destruct (sint32 _ =? 0); split; simpl; auto using memset_length.
  - split; simpl; auto using memset_length.
Qed.

Lemma reachable_wf (st : rma_state) : reachable cfg st -> state_wf cfg st.
Proof.
  induction 1 as [|st c _ IH].
  - apply initial_state_wf.
  - destruct c; simpl; auto using create_wf, try_wf.
Qed.

Lemma cleared_authcode_empty (st : rma_state) :
  state_wf cfg st ->
  nth 0 (memset (authcode st) 0 (sizeof_authcode cfg)) 0 = 0.
Proof.
  intros [_ Ha]. rewrite memset_full by assumption.
  destruct (sizeof_authcode cfg); reflexivity.
Qed.

(** ** Rate limiting *)

(** C1 (amended): a call of rma_create_challenge made less than
    CHALLENGE_INTERVAL after the last recorded challenge time returns
    EC_ERROR_TIMEOUT and leaves last_challenge_time and tries_left as
    they were; the stored challenge and the stored authcode are cleared
    to zero bytes, because the buffers are wiped before the rate limit
    is checked. *)
Theorem rate_limited_create_clears_buffers (st : rma_state) (e : create_env) :
  state_wf cfg st ->
  last_challenge_time st <= get_time e ->
  get_time e - last_challenge_time st < CHALLENGE_INTERVAL ->
  fst (rma_create_challenge cfg st e) = EC_ERROR_TIMEOUT /\
  last_challenge_time (snd (rma_create_challenge cfg st e))
    = last_challenge_time st /\
  tries_left (snd (rma_create_challenge cfg st e)) = tries_left st /\
  challenge (snd (rma_create_challenge cfg st e))
    = repeat 0 (sizeof_challenge cfg) /\
  authcode (snd (rma_create_challenge cfg st e))
    = repeat 0 (sizeof_authcode cfg).
Proof.
  intros [Hc Ha] Hle Hlt.
  rewrite create_rate_limited.
  - simpl. rewrite !memset_full by assumption. auto.
  - rewrite uint64_small; [assumption|].
    unfold CHALLENGE_INTERVAL, SECOND in Hlt. lia.
Qed.

(** A state whose last challenge time is still 0 refuses every request
    made in the first CHALLENGE_INTERVAL, whatever else is called. *)
Lemma early_creates_time_out (calls : list call) (st : rma_state) :
  last_challenge_time st = 0 ->
  Forall (fun c => match c with
                   | Create e => 0 <= get_time e < CHALLENGE_INTERVAL
                   | Try _ => True
                   end) calls ->
  Forall (fun x => is_create (fst x) = true -> snd x = EC_ERROR_TIMEOUT)
         (fst (run cfg st calls)).
Proof.
  revert st. induction calls as [|c rest IH]; intros st H0 Hall; simpl.
  - constructor.
  - inversion Hall as [|c' rest' Hc Hrest]; subst.
    destruct (step cfg st c) as [rv st1] eqn:Hstep.
    specialize (IH st1).
    destruct (run cfg st1 rest) as [tr st2] eqn:Hrun. simpl in *.
    destruct c as [e|code]; simpl in Hstep.
    + rewrite create_rate_limited in Hstep.
      2:{ rewrite H0, Z.sub_0_r, uint64_small; [lia|].
          unfold CHALLENGE_INTERVAL, SECOND in Hc. lia. }
      injection Hstep as <- <-.
      constructor; [reflexivity|]. apply IH; assumption.
    + constructor; [discriminate|]. apply IH; [|assumption].
      replace st1 with (snd (rma_try_authcode cfg st code))
        by (rewrite Hstep; reflexivity).
      rewrite try_last_challenge_time. assumption.
Qed.

(** C10: in the initial state last_challenge_time is 0, and in every run
    from the initial state each rma_create_challenge call made at a time
    t < CHALLENGE_INTERVAL fails with EC_ERROR_TIMEOUT, although no
    challenge has been issued. *)
Theorem create_within_first_interval_times_out (calls : list call) :
  Forall (fun c => match c with
                   | Create e => 0 <= get_time e < CHALLENGE_INTERVAL
                   | Try _ => True
                   end) calls ->
  last_challenge_time (initial_state cfg) = 0 /\
  Forall (fun x => is_create (fst x) = true -> snd x = EC_ERROR_TIMEOUT)
         (fst (run cfg (initial_state cfg) calls)).
Proof.
  intros Hall. split; [reflexivity|].
  apply early_creates_time_out; [reflexivity | assumption].
Qed.

(** ** The attempt counter *)

Lemma tries_left_invariant (st : rma_state) :
  reachable cfg st ->
  0 <= tries_left st <= MAX_AUTHCODE_TRIES /\
  (authcode_empty st = false -> 0 < tries_left st).
Proof.
  induction 1 as [|st c Hr [Hrange Hne]].
  - simpl. unfold MAX_AUTHCODE_TRIES, authcode_empty. simpl. split; [lia|].
    destruct (sizeof_authcode cfg); simpl; discriminate.
  - apply reachable_wf in Hr.
    unfold authcode_empty in *.
    destruct c as [e|code]; simpl.
    + destruct (rma_create_challenge cfg st e) as [rv st'] eqn:Hc. simpl.
      destruct (ec_eqb rv EC_SUCCESS) eqn:Hrv.
      * destruct rv; try discriminate.
        apply create_success in Hc.
        destruct Hc as (bid & ch & ac & _ & _ & _ & ->). simpl.
        unfold MAX_AUTHCODE_TRIES. lia.
      * apply create_failure in Hc; [|intros ->; discriminate].
        destruct Hc as [-> ->]. split; [assumption|].
        rewrite cleared_authcode_empty by assumption.
        rewrite Z.eqb_refl. discriminate.
    + unfold rma_try_authcode.
      destruct (tries_left st =? 0) eqn:Ht; [simpl; split; assumption|].
      destruct (nth 0 (authcode st) 0 =? 0) eqn:Ha;
        [simpl; split; [assumption | rewrite Ha; discriminate]|].
      apply Z.eqb_neq in Ht.
      assert (Hdec : sint32 (tries_left st - 1) = tries_left st - 1).
      { apply sint32_small. unfold MAX_AUTHCODE_TRIES in Hrange. lia. }
      destruct (negb _); simpl.
      * rewrite Hdec.
        destruct (tries_left st - 1 =? 0) eqn:Hz; simpl.
        -- rewrite cleared_authcode_empty by assumption.
           split; [lia|]. rewrite Z.eqb_refl. discriminate.
        -- rewrite Ha. apply Z.eqb_neq in Hz. split; lia.
      * rewrite cleared_authcode_empty by assumption.
        unfold MAX_AUTHCODE_TRIES. split; [lia|].
        rewrite Z.eqb_refl. discriminate.
Qed.

(** C2 (amended): in every state reachable from the initial state by
    calls of rma_create_challenge and rma_try_authcode, tries_left lies
    between 0 and MAX_AUTHCODE_TRIES, and a non-empty stored authcode
    (first byte non-zero) implies tries_left > 0.  The converse is not
    an invariant: a request that fails clears the authcode and keeps
    tries_left. *)
Theorem authcode_nonempty_implies_tries_left (st : rma_state) :
  reachable cfg st ->
  0 <= tries_left st <= MAX_AUTHCODE_TRIES /\
  (nth 0 (authcode st) 0 <> 0 -> 0 < tries_left st).
Proof.
  intros Hr. destruct (tries_left_invariant st Hr) as [Hrange Hne].
  split; [assumption|].
  intros Hnz. apply Hne. unfold authcode_empty.
  apply Z.eqb_neq. assumption.
Qed.

(** Once no try is left, every verification is refused until a request
    for a new challenge succeeds. *)
Lemma locked_until_create (calls : list call) (st : rma_state) :
  tries_left st = 0 ->
  Forall (fun x => is_try (fst x) = true -> snd x = EC_ERROR_ACCESS_DENIED)
         (until_create_succeeds (fst (run cfg st calls))).
Proof.
  revert st. induction calls as [|c rest IH]; intros st H0; simpl.
  - constructor.
  - destruct (step cfg st c) as [rv st1] eqn:Hstep.
    specialize (IH st1).
    destruct (run cfg st1 rest) as [tr st2] eqn:Hrun. simpl in *.
    destruct c as [e|code]; simpl in Hstep.
    + destruct rv; try (constructor; [discriminate|]; apply IH;
        apply create_failure in Hstep; [|discriminate];
        destruct Hstep as [-> _]; assumption).
      constructor.
    + rewrite try_denied in Hstep by assumption.
      injection Hstep as <- <-.
      constructor; [reflexivity|]. apply IH. assumption.
Qed.

(** C5: after three consecutive rma_try_authcode calls that each return
    the mismatch error EC_ERROR_INVAL, every later rma_try_authcode call
    returns EC_ERROR_ACCESS_DENIED until a rma_create_challenge call
    succeeds, whatever calls are made. *)
Theorem lockout_after_three_mismatches
        (st0 st1 st2 st3 : rma_state) (c1 c2 c3 : list Z) (calls : list call) :
  reachable cfg st0 ->
  rma_try_authcode cfg st0 c1 = (EC_ERROR_INVAL, st1) ->
  rma_try_authcode cfg st1 c2 = (EC_ERROR_INVAL, st2) ->
  rma_try_authcode cfg st2 c3 = (EC_ERROR_INVAL, st3) ->
  tries_left st3 = 0 /\
  Forall (fun x => is_try (fst x) = true -> snd x = EC_ERROR_ACCESS_DENIED)
         (until_create_succeeds (fst (run cfg st3 calls))).
Proof.
  intros Hr H1 H2 H3.
  destruct (tries_left_invariant st0 Hr) as [Hrange _].
  apply try_invalid in H1. destruct H1 as [N1 E1].
  apply try_invalid in H2. destruct H2 as [N2 E2].
  apply try_invalid in H3. destruct H3 as [N3 E3].
  unfold MAX_AUTHCODE_TRIES in Hrange.
  rewrite sint32_small in E1 by lia.
  rewrite E1 in *. rewrite sint32_small in E2 by lia.
  rewrite E2 in *. rewrite sint32_small in E3 by lia.
  assert (H0 : tries_left st3 = 0) by lia.
  split; [assumption|].
  apply locked_until_create. assumption.
Qed.

(** ** The challenge record *)

Lemma skipn_repeat (x : Z) (n m : nat) :
  skipn n (repeat x m) = repeat x (m - n).
Proof.
  revert n. induction m as [|m IH]; intros n.
  - destruct n; reflexivity.
  - destruct n as [|n]; [reflexivity|]. simpl. apply IH.
Qed.

Lemma memcpy_length (dest src : list Z) (n : nat) :
  length dest = n -> length src = n -> memcpy dest src n = src.
Proof.
  intros Hd Hs. unfold memcpy.
  rewrite firstn_all2, skipn_all2 by lia. apply app_nil_r.
Qed.

(** The device id field as lines 107-121 leave it. *)
Lemma device_id_value (bid uid pub : list Z) :
  device_id (fill_challenge cfg bid uid pub)
  = (if (length uid <=? sizeof_device_id)%nat
     then uid ++ repeat 0 (sizeof_device_id - length uid)
     else firstn sizeof_device_id (hmac_SHA256 uid uid)).
Proof.
  unfold fill_challenge. cbn [device_id zero_challenge].
  destruct (length uid <=? sizeof_device_id)%nat eqn:Hle.
  - unfold memcpy. rewrite firstn_all, skipn_repeat. reflexivity.
  - unfold hash_buffer, get_hmac_sha256, memcpy.
    rewrite firstn_all, firstn_firstn, skipn_repeat.
    unfold sizeof_device_id. cbn [Nat.min Nat.sub repeat].
    apply app_nil_r.
Qed.

(** C6: in the challenge record, a unique device id of at most 8 bytes
    is copied as it is into device_id, the remaining bytes staying
    zero; a longer one is replaced by the first 8 bytes of the
    HMAC-SHA-256 keyed with the device id over the device id.  The field
    therefore depends on the device id alone: it is the same whatever
    the board id and the key pair of the call. *)
Theorem device_id_field (bid bid' uid pub pub' : list Z) :
  device_id (fill_challenge cfg bid uid pub)
  = (if (length uid <=? sizeof_device_id)%nat
     then uid ++ repeat 0 (sizeof_device_id - length uid)
     else firstn sizeof_device_id (hmac_SHA256 uid uid)) /\
  device_id (fill_challenge cfg bid uid pub)
  = device_id (fill_challenge cfg bid' uid pub').
Proof.
  split.
  - apply device_id_value.
  - rewrite !device_id_value. reflexivity.
Qed.

Lemma device_id_length (bid uid pub : list Z) :
  length (device_id (fill_challenge cfg bid uid pub)) = sizeof_device_id.
Proof.
  rewrite device_id_value.
  destruct (length uid <=? sizeof_device_id)%nat eqn:Hle.
  - apply Nat.leb_le in Hle. rewrite length_app, repeat_length. lia.
  - rewrite length_firstn, hmac_SHA256_length. reflexivity.
Qed.

Lemma challenge_bytes_length (bid uid pub : list Z) :
  length bid = sizeof_board_id -> length pub = sizeof_device_pub_key ->
  length (challenge_bytes (fill_challenge cfg bid uid pub))
  = sizeof_rma_challenge.
Proof.
  intros Hbid Hpub. unfold challenge_bytes.
  rewrite !length_app, device_id_length, repeat_length.
  unfold fill_challenge.
  cbn [board_id device_pub_key version_key_id zero_challenge].
  rewrite !memcpy_length
    by (rewrite ?repeat_length; first [assumption | reflexivity]).
  rewrite Hbid, Hpub. reflexivity.
Qed.

(** ** The authcode and the challenge string *)

(** C3: on a successful rma_create_challenge the stored authcode is the
    8-character base-32 encoding of the first 40 bits (5 bytes) of the
    HMAC-SHA-256, keyed with the X25519 shared secret of the fresh
    private key and server_pub_key, of the challenge record without its
    leading version_key_id byte (bytes 1 to the end of the record); the
    characters belong to the base-32 alphabet and a terminator follows
    them. *)
Theorem authcode_is_truncated_hmac (st st' : rma_state) (e : create_env) :
  env_wf e ->
  rma_create_challenge cfg st e = (EC_SUCCESS, st') ->
  exists bid,
    read_board_id e = Some bid /\
    let record :=
      challenge_bytes (fill_challenge cfg bid (system_get_chip_unique_id e)
                                      (fst (X25519_keypair e))) in
    let shared := X25519 (snd (X25519_keypair e)) (server_pub_key cfg) in
    let tag := hmac_SHA256 shared (skipn 1 record) in
    length record = sizeof_rma_challenge /\
    firstn RMA_AUTHCODE_CHARS (authcode st')
    = map Base32.base32_char (Base32.data_symbols (firstn 5 tag) 40) /\
    length (firstn RMA_AUTHCODE_CHARS (authcode st')) = 8%nat /\
    Forall (fun ch => In ch Base32.base32_map /\ ch <> 0)
           (firstn RMA_AUTHCODE_CHARS (authcode st')) /\
    nth_error (authcode st') RMA_AUTHCODE_CHARS = Some 0.
Proof.
  intros [Hbid Hpub] Hc.
  apply create_success in Hc.
  destruct Hc as (bid & ch & ac & Hrd & _ & Hac & ->).
  exists bid. split; [assumption|]. cbv zeta.
  rewrite Hrd in Hbid.
  pose proof (challenge_bytes_length bid (system_get_chip_unique_id e)
                _ Hbid Hpub) as Hlen.
  set (record := challenge_bytes _) in *.
  split; [assumption|].
  apply base32_encode_text in Hac. cbv zeta in Hac.
  unfold get_hmac_sha256 in Hac.
  rewrite !(@firstn_all2 Z 32 (X25519 _ _)) in Hac
    by (rewrite X25519_length; lia).
  rewrite (@firstn_all2 Z _ (skipn 1 record)) in Hac
    by (rewrite length_skipn, Hlen; unfold sizeof_rma_challenge; lia).
  rewrite (@firstn_all2 Z 32 (hmac_SHA256 _ _)) in Hac
    by (rewrite hmac_SHA256_length; lia).
  set (tag := hmac_SHA256 _ _) in *.
  rewrite encoded_symbols_plain in Hac.
  replace (RMA_AUTHCODE_CHARS * 5)%nat with 40%nat in Hac by reflexivity.
  rewrite (data_symbols_prefix tag 5 40) in Hac
    by (try (unfold tag; rewrite hmac_SHA256_length); lia).
  assert (Hn : length (map Base32.base32_char
                           (Base32.data_symbols (firstn 5 tag) 40)) = 8%nat).
  { rewrite length_map. unfold Base32.data_symbols.
    rewrite symbols_length. reflexivity. }
  rewrite Hn in Hac. destruct Hac as (Htext & Hnul & _).
  cbn [authcode]. change RMA_AUTHCODE_CHARS with 8%nat.
  rewrite Htext. repeat split; try assumption.
  apply Forall_map. unfold Base32.data_symbols.
  eapply Forall_impl; [|apply symbols_range].
  intros s Hs. apply base32_char_alphabet. assumption.
Qed.

(** With the 19 reserved bytes of the spec's record the sized function
    is rma_create_challenge. *)
Lemma rma_create_challenge_sized_spec_record
      (st : rma_state) (e : create_env) :
  rma_create_challenge_sized cfg sizeof_reserved st e
  = rma_create_challenge cfg st e.
Proof. reflexivity. Qed.



(** ** The comparison *)

Lemma nth_tl (s : list Z) (i : nat) : nth i (tl s) 0 = nth (S i) s 0.
Proof. destruct s; [destruct i|]; reflexivity. Qed.

(** [safe_memcmp] answers 0 exactly when all [size] byte pairs agree. *)
Lemma safe_memcmp_zero_iff (size : nat) (s1 s2 : list Z) :
  safe_memcmp s1 s2 size = 0 <->
  (forall i, (i < size)%nat -> nth i s1 0 = nth i s2 0).
Proof.
  revert s1 s2. induction size as [|n IH]; intros s1 s2; cbn [safe_memcmp].
  - split; [intros _ i Hi; lia | reflexivity].
  - rewrite Z.lor_eq_0_iff, Z.lxor_eq_0_iff, IH. split.
    + intros [H0 Hrest] [|i] Hi; [assumption|].
      rewrite <- !nth_tl. apply Hrest. lia.
    + intros Hall. split; [apply Hall; lia|].
      intros i Hi. rewrite !nth_tl. apply Hall. lia.
Qed.

Lemma try_success_iff (st : rma_state) (code : list Z) :
  tries_left st <> 0 -> nth 0 (authcode st) 0 <> 0 ->
  (fst (rma_try_authcode cfg st code) = EC_SUCCESS <->
   forall i, (i < RMA_AUTHCODE_CHARS)%nat ->
             nth i (authcode st) 0 = nth i code 0) /\
  (fst (rma_try_authcode cfg st code) = EC_SUCCESS \/
   fst (rma_try_authcode cfg st code) = EC_ERROR_INVAL).
Proof.
  intros Ht Ha. unfold rma_try_authcode.
  apply Z.eqb_neq in Ht. apply Z.eqb_neq in Ha. rewrite Ht, Ha.
  rewrite <- safe_memcmp_zero_iff.
  destruct (safe_memcmp (authcode st) code RMA_AUTHCODE_CHARS =? 0) eqn:Hcmp;
    cbn [negb fst].
  - apply Z.eqb_eq in Hcmp. split; [tauto | auto].
  - apply Z.eqb_neq in Hcmp. split; [|auto].
    split; [discriminate | contradiction].
Qed.

(** ** Vendor command handlers *)




(** C8 (amended): when the create-challenge request comes with a reply
    buffer too small to hold the challenge string, the handler answers
    with the single byte VENDOR_RC_RESPONSE_TOO_BIG before it calls
    rma_create_challenge: the session state is left exactly as it was,
    neither cleared nor made idle. *)
Theorem small_reply_buffer_leaves_state (st : rma_state) (e : create_env)
        (buf : list Z) (n : nat) :
  (n < sizeof_challenge cfg)%nat -> buf <> [] ->
  rma_challenge_response cfg st e buf 0 n = get_challenge cfg st e buf n /\
  snd (get_challenge cfg st e buf n) = st /\
  vr_size (fst (get_challenge cfg st e buf n)) = 1%nat /\
  nth 0 (vr_buf (fst (get_challenge cfg st e buf n))) 0
  = uint8 (vendor_value cfg VENDOR_RC_RESPONSE_TOO_BIG) /\
  vr_rc (fst (get_challenge cfg st e buf n))
  = uint8 (vendor_value cfg VENDOR_RC_RESPONSE_TOO_BIG).
Proof.
  intros Hn Hbuf. split; [reflexivity|].
  unfold get_challenge. apply Nat.ltb_lt in Hn. rewrite Hn.
  destruct buf as [|b rest]; [contradiction|].
  repeat split.
Qed.

(** C9: a verify request whose payload length is not exactly
    RMA_AUTHCODE_CHARS (8) is answered with VENDOR_RC_BOGUS_ARGS in a
    one-byte reply, and the state is left as it was: tries_left is not
    decremented and the stored challenge and authcode are unchanged. *)
Theorem bad_payload_length_rejected (st : rma_state) (e : create_env)
        (buf : list Z) (input_size response_size : nat) :
  input_size <> RMA_AUTHCODE_CHARS -> buf <> [] ->
  vr_rc (fst (process_response cfg st buf input_size))
  = uint8 (vendor_value cfg VENDOR_RC_BOGUS_ARGS) /\
  vr_size (fst (process_response cfg st buf input_size)) = 1%nat /\
  tries_left (snd (process_response cfg st buf input_size))
  = tries_left st /\
  challenge (snd (process_response cfg st buf input_size)) = challenge st /\
  authcode (snd (process_response cfg st buf input_size)) = authcode st /\
  snd (process_response cfg st buf input_size) = st /\
  (input_size <> 0%nat ->
   rma_challenge_response cfg st e buf input_size response_size
   = process_response cfg st buf input_size).
Proof.
  intros Hsize Hbuf. unfold process_response.
  apply Nat.eqb_neq in Hsize. rewrite Hsize. cbn [negb fst snd vr_rc vr_size].
  destruct buf as [|b rest]; [contradiction|].
  repeat split.
  intros Hnz. unfold rma_challenge_response, process_response.
  apply Nat.eqb_neq in Hnz. rewrite Hnz, Hsize. reflexivity.
Qed.

End Properties.

(** * Concrete runs *)

Section ConcreteRuns.

Import TestPlatform.

Lemma st_armed_reachable : reachable test_cfg st_armed.
Proof.
  apply (reachable_step test_cfg (initial_state test_cfg) (Create env_100s)).
  apply reachable_initial.
Defined.

Lemma st_limited_reachable : reachable test_cfg st_limited.
Proof.
  apply (reachable_step test_cfg st_armed (Create env_105s)).
  apply st_armed_reachable.
Defined.

Lemma first_create_succeeds :
  rma_create_challenge test_cfg (initial_state test_cfg) env_100s
  = (EC_SUCCESS, st_armed).
Proof. vm_compute. reflexivity. Defined.

(** The rate-limited request of the rate-limit scenario: 5 s after a
    successful one it is refused, and the challenge and the authcode
    that were stored are gone. *)
Lemma rate_limited_create_changes_buffers :
  get_time env_105s - last_challenge_time st_armed < CHALLENGE_INTERVAL /\
  fst (rma_create_challenge test_cfg st_armed env_105s) = EC_ERROR_TIMEOUT /\
  challenge (snd (rma_create_challenge test_cfg st_armed env_105s))
    <> challenge st_armed /\
  authcode (snd (rma_create_challenge test_cfg st_armed env_105s))
    <> authcode st_armed.
Proof.
  split; [vm_compute; reflexivity|].
  split; [vm_compute; reflexivity|].
  split; vm_compute; discriminate.
Qed.

Lemma rate_limited_create_witness :
  (state_wf test_cfg st_armed /\
   last_challenge_time st_armed <= get_time env_105s /\
   get_time env_105s - last_challenge_time st_armed < CHALLENGE_INTERVAL) /\
  fst (rma_create_challenge test_cfg st_armed env_105s) = EC_ERROR_TIMEOUT /\
  last_challenge_time (snd (rma_create_challenge test_cfg st_armed env_105s))
    = last_challenge_time st_armed /\
  tries_left (snd (rma_create_challenge test_cfg st_armed env_105s))
    = tries_left st_armed /\
  challenge (snd (rma_create_challenge test_cfg st_armed env_105s))
    = repeat 0 (sizeof_challenge test_cfg) /\
  authcode (snd (rma_create_challenge test_cfg st_armed env_105s))
    = repeat 0 (sizeof_authcode test_cfg).
Proof.
  assert (Hwf : state_wf test_cfg st_armed)
    by (split; vm_compute; reflexivity).
  assert (Hle : last_challenge_time st_armed <= get_time env_105s)
    by (vm_compute; discriminate).
  assert (Hlt : get_time env_105s - last_challenge_time st_armed
                < CHALLENGE_INTERVAL)
    by (vm_compute; reflexivity).
  split; [auto|].
  apply (@rate_limited_create_clears_buffers test_primitives test_cfg
           st_armed env_105s Hwf Hle Hlt).
Defined.

(** After that refused request the authcode is empty although three
    tries are left. *)
Lemma empty_authcode_with_tries_left :
  reachable test_cfg st_limited /\
  ~ (nth 0 (authcode st_limited) 0 <> 0 <-> 0 < tries_left st_limited).
Proof.
  split; [apply st_limited_reachable|].
  intros [_ Hback].
  apply Hback; vm_compute; reflexivity.
Qed.

Lemma authcode_nonempty_witness :
  reachable test_cfg st_armed /\
  0 <= tries_left st_armed <= MAX_AUTHCODE_TRIES /\
  (nth 0 (authcode st_armed) 0 <> 0 -> 0 < tries_left st_armed).
Proof.
  split; [apply st_armed_reachable|].
  apply (@authcode_nonempty_implies_tries_left test_primitives test_cfg
           st_armed st_armed_reachable).
Defined.

Lemma authcode_is_truncated_hmac_witness :
  (env_wf env_100s /\
   rma_create_challenge test_cfg (initial_state test_cfg) env_100s
   = (EC_SUCCESS, st_armed)) /\
  exists bid,
    read_board_id env_100s = Some bid /\
    let record :=
      challenge_bytes
        (fill_challenge test_cfg bid (system_get_chip_unique_id env_100s)
                        (fst (X25519_keypair env_100s))) in
    let shared :=
      X25519 (snd (X25519_keypair env_100s)) (server_pub_key test_cfg) in
    let tag := hmac_SHA256 shared (skipn 1 record) in
    length record = sizeof_rma_challenge /\
    firstn RMA_AUTHCODE_CHARS (authcode st_armed)
    = map Base32.base32_char (Base32.data_symbols (firstn 5 tag) 40) /\
    length (firstn RMA_AUTHCODE_CHARS (authcode st_armed)) = 8%nat /\
    Forall (fun ch => In ch Base32.base32_map /\ ch <> 0)
           (firstn RMA_AUTHCODE_CHARS (authcode st_armed)) /\
    nth_error (authcode st_armed) RMA_AUTHCODE_CHARS = Some 0.
Proof.
  assert (Hwf : env_wf env_100s) by (split; reflexivity).
  split; [split; [exact Hwf | exact first_create_succeeds]|].
  apply (@authcode_is_truncated_hmac test_primitives test_cfg
           (initial_state test_cfg) st_armed env_100s Hwf
           first_create_succeeds).
Defined.




Lemma lockout_witness :
  (reachable test_cfg st_armed /\
   rma_try_authcode test_cfg st_armed wrong_code
   = (EC_ERROR_INVAL, st_wrong1) /\
   rma_try_authcode test_cfg st_wrong1 wrong_code
   = (EC_ERROR_INVAL, st_wrong2) /\
   rma_try_authcode test_cfg st_wrong2 wrong_code
   = (EC_ERROR_INVAL, st_wrong3)) /\
  tries_left st_wrong3 = 0 /\
  Forall (fun x => is_try (fst x) = true -> snd x = EC_ERROR_ACCESS_DENIED)
         (until_create_succeeds
            (fst (run test_cfg st_wrong3
                      [Try wrong_code; Create env_105s;
                       Try (firstn 8 (authcode st_armed))]))).
Proof.
  assert (H1 : rma_try_authcode test_cfg st_armed wrong_code
               = (EC_ERROR_INVAL, st_wrong1)) by (vm_compute; reflexivity).
  assert (H2 : rma_try_authcode test_cfg st_wrong1 wrong_code
               = (EC_ERROR_INVAL, st_wrong2)) by (vm_compute; reflexivity).
  assert (H3 : rma_try_authcode test_cfg st_wrong2 wrong_code
               = (EC_ERROR_INVAL, st_wrong3)) by (vm_compute; reflexivity).
  split; [exact (conj st_armed_reachable (conj H1 (conj H2 H3)))|].
  apply (@lockout_after_three_mismatches test_primitives test_cfg
           st_armed st_wrong1 st_wrong2 st_wrong3
           wrong_code wrong_code wrong_code
           [Try wrong_code; Create env_105s;
            Try (firstn 8 (authcode st_armed))]
           st_armed_reachable H1 H2 H3).
Defined.



(** With a reply buffer of 16 bytes the request is refused and the
    session that was armed stays armed, its challenge in place. *)
Lemma small_reply_buffer_keeps_session :
  vr_size (fst (rma_challenge_response test_cfg st_armed env_105s
                  (repeat 0 16) 0 16)) = 1%nat /\
  vr_rc (fst (rma_challenge_response test_cfg st_armed env_105s
                (repeat 0 16) 0 16))
  = vendor_value test_cfg VENDOR_RC_RESPONSE_TOO_BIG /\
  challenge (snd (rma_challenge_response test_cfg st_armed env_105s
                    (repeat 0 16) 0 16))
  <> repeat 0 (sizeof_challenge test_cfg) /\
  nth 0 (authcode (snd (rma_challenge_response test_cfg st_armed env_105s
                          (repeat 0 16) 0 16))) 0 <> 0 /\
  tries_left (snd (rma_challenge_response test_cfg st_armed env_105s
                     (repeat 0 16) 0 16)) = 3.
Proof.
  split; [vm_compute; reflexivity|].
  split; [vm_compute; reflexivity|].
  split; [vm_compute; discriminate|].
  split; [vm_compute; discriminate|].
  vm_compute; reflexivity.
Qed.

Lemma small_reply_buffer_witness :
  ((16 < sizeof_challenge test_cfg)%nat /\ repeat 0 16 <> []) /\
  rma_challenge_response test_cfg st_armed env_105s (repeat 0 16) 0 16
  = get_challenge test_cfg st_armed env_105s (repeat 0 16) 16 /\
  snd (get_challenge test_cfg st_armed env_105s (repeat 0 16) 16)
  = st_armed /\
  vr_size (fst (get_challenge test_cfg st_armed env_105s (repeat 0 16) 16))
  = 1%nat /\
  nth 0 (vr_buf (fst (get_challenge test_cfg st_armed env_105s
                        (repeat 0 16) 16))) 0
  = uint8 (vendor_value test_cfg VENDOR_RC_RESPONSE_TOO_BIG) /\
  vr_rc (fst (get_challenge test_cfg st_armed env_105s (repeat 0 16) 16))
  = uint8 (vendor_value test_cfg VENDOR_RC_RESPONSE_TOO_BIG).
Proof.
  assert (Hn : (16 < sizeof_challenge test_cfg)%nat) by (vm_compute; lia).
  assert (Hbuf : repeat 0 16 <> []) by discriminate.
  split; [split; assumption|].
  apply (@small_reply_buffer_leaves_state test_primitives test_cfg
           st_armed env_105s (repeat 0 16) 16%nat Hn Hbuf).
Defined.

Lemma bad_payload_length_witness :
  (7%nat <> RMA_AUTHCODE_CHARS /\ repeat 65 16 <> []) /\
  vr_rc (fst (process_response test_cfg st_armed (repeat 65 16) 7))
  = uint8 (vendor_value test_cfg VENDOR_RC_BOGUS_ARGS) /\
  vr_size (fst (process_response test_cfg st_armed (repeat 65 16) 7))
  = 1%nat /\
  tries_left (snd (process_response test_cfg st_armed (repeat 65 16) 7))
  = tries_left st_armed /\
  challenge (snd (process_response test_cfg st_armed (repeat 65 16) 7))
  = challenge st_armed /\
  authcode (snd (process_response test_cfg st_armed (repeat 65 16) 7))
  = authcode st_armed /\
  snd (process_response test_cfg st_armed (repeat 65 16) 7) = st_armed /\
  (7%nat <> 0%nat ->
   rma_challenge_response test_cfg st_armed env_105s (repeat 65 16) 7 16
   = process_response test_cfg st_armed (repeat 65 16) 7).
Proof.
  assert (Hsize : 7%nat <> RMA_AUTHCODE_CHARS) by discriminate.
  assert (Hbuf : repeat 65 16 <> []) by discriminate.
  split; [split; assumption|].
  apply (@bad_payload_length_rejected test_primitives test_cfg
           st_armed env_105s (repeat 65 16) 7%nat 16%nat Hsize Hbuf).
Defined.

Lemma create_within_first_interval_witness :
  Forall (fun c => match c with
                   | Create e => 0 <= get_time e < CHALLENGE_INTERVAL
                   | Try _ => True
                   end)
         [Create (test_env (5 * SECOND) 7); Try wrong_code;
          Create (test_env (9 * SECOND) 9)] /\
  last_challenge_time (initial_state test_cfg) = 0 /\
  Forall (fun x => is_create (fst x) = true -> snd x = EC_ERROR_TIMEOUT)
         (fst (run test_cfg (initial_state test_cfg)
                   [Create (test_env (5 * SECOND) 7); Try wrong_code;
                    Create (test_env (9 * SECOND) 9)])).
Proof.
  assert (Hall :
            Forall (fun c => match c with
                             | Create e => 0 <= get_time e < CHALLENGE_INTERVAL
                             | Try _ => True
                             end)
                   [Create (test_env (5 * SECOND) 7); Try wrong_code;
                    Create (test_env (9 * SECOND) 9)]).
  { repeat constructor; vm_compute; discriminate. }
  split; [exact Hall|].
  apply (@create_within_first_interval_times_out test_primitives test_cfg
           _ Hall).
Defined.

End ConcreteRuns.

(** * More properties of the session *)

Section SessionProperties.

Context {prim : Primitives}.
Variable cfg : rma_config.

Arguments Base32.base32_encode : simpl never.
Arguments get_hmac_sha256 : simpl never.
Arguments fill_challenge : simpl never.
Arguments challenge_bytes : simpl never.
Arguments memset : simpl never.
Arguments memcpy : simpl never.

Ltac case_in H :=
  match type of H with
  | context [match ?x with _ => _ end] => destruct x eqn:?
  end.

(** ** rma_try_authcode *)

Lemma try_disarmed (st : rma_state) (code : list Z) :
  tries_left st = 0 \/ nth 0 (authcode st) 0 = 0 ->
  rma_try_authcode cfg st code = (EC_ERROR_ACCESS_DENIED, st).
Proof.
  intros [H0|H0]; unfold rma_try_authcode.
  - rewrite H0. reflexivity.
  - rewrite H0. destruct (tries_left st =? 0); reflexivity.
Qed.

Lemma try_success_closes (st st' : rma_state) (code : list Z) :
  rma_try_authcode cfg st code = (EC_SUCCESS, st') -> tries_left st' = 0.
Proof.
  unfold rma_try_authcode.
  destruct (tries_left st =? 0); [discriminate|].
  destruct (nth 0 (authcode st) 0 =? 0); [discriminate|].
  destruct (negb _); simpl.
  - destruct (sint32 _ =? 0); discriminate.
  - intros [= <-]. reflexivity.
Qed.

Lemma matching_code_ends_session_aux (st : rma_state) (code : list Z) :
  state_wf cfg st ->
  tries_left st <> 0 -> nth 0 (authcode st) 0 <> 0 ->
  (forall i, (i < RMA_AUTHCODE_CHARS)%nat ->
             nth i (authcode st) 0 = nth i code 0) ->
  rma_try_authcode cfg st code = (EC_SUCCESS, session_closed cfg st).
Proof.
  intros [Hc Ha] Ht Hne Hsame. unfold rma_try_authcode.
  apply Z.eqb_neq in Ht. apply Z.eqb_neq in Hne. rewrite Ht, Hne.
  apply safe_memcmp_zero_iff in Hsame. rewrite Hsame. simpl.
  unfold session_closed. rewrite !memset_full by assumption. reflexivity.
Qed.

(** X1: in an armed session (a try left, a stored authcode), a code
    whose first RMA_AUTHCODE_CHARS bytes equal the stored authcode is
    accepted, and the call ends the session: tries_left becomes 0 and
    the challenge and authcode buffers are zeroed; last_challenge_time
    is kept. *)
Theorem matching_code_ends_session (st : rma_state) (code : list Z) :
  state_wf cfg st ->
  tries_left st <> 0 -> nth 0 (authcode st) 0 <> 0 ->
  (forall i, (i < RMA_AUTHCODE_CHARS)%nat ->
             nth i (authcode st) 0 = nth i code 0) ->
  rma_try_authcode cfg st code = (EC_SUCCESS, session_closed cfg st).
Proof.
  intros Hwf Ht Hne Hsame.
  apply matching_code_ends_session_aux; assumption.
Qed.

(** X2: in an armed session a code that differs from the stored
    authcode in one of its first RMA_AUTHCODE_CHARS bytes returns
    EC_ERROR_INVAL and costs exactly one try.  While a try remains the
    challenge and the authcode stay as they were; with the last try the
    session is closed and both buffers are zeroed. *)
Theorem mismatch_costs_one_try (st : rma_state) (code : list Z) (i : nat) :
  state_wf cfg st ->
  0 < tries_left st < 2 ^ 31 -> nth 0 (authcode st) 0 <> 0 ->
  (i < RMA_AUTHCODE_CHARS)%nat -> nth i (authcode st) 0 <> nth i code 0 ->
  rma_try_authcode cfg st code
  = (EC_ERROR_INVAL,
     if tries_left st =? 1 then session_closed cfg st
     else set_tries_left st (tries_left st - 1)).
Proof.
  intros [Hc Ha] Ht Hne Hi Hdiff. unfold rma_try_authcode.
  assert (Ht0 : (tries_left st =? 0) = false) by (apply Z.eqb_neq; lia).
  apply Z.eqb_neq in Hne. rewrite Ht0, Hne.
  assert (Hcmp : (safe_memcmp (authcode st) code RMA_AUTHCODE_CHARS =? 0)
                 = false).
  { apply Z.eqb_neq. intros Hz.
    apply Hdiff.
    exact (proj1 (safe_memcmp_zero_iff _ _ _) Hz i Hi). }
  rewrite Hcmp. simpl. rewrite sint32_small by lia.
  destruct (tries_left st =? 1) eqn:H1.
  - apply Z.eqb_eq in H1. rewrite H1. simpl.
    unfold session_closed. rewrite !memset_full by assumption. reflexivity.
  - apply Z.eqb_neq in H1.
    replace (tries_left st - 1 =? 0) with false
      by (symmetry; apply Z.eqb_neq; lia).
    reflexivity.
Qed.

Lemma nth_firstn_lt (l : list Z) (n i : nat) :
  (i < n)%nat -> nth i (firstn n l) 0 = nth i l 0.
Proof.
  intros Hi. rewrite nth_firstn.
  apply Nat.ltb_lt in Hi. rewrite Hi. reflexivity.
Qed.

Lemma safe_memcmp_prefix (size : nat) (s c1 c2 : list Z) :
  firstn size c1 = firstn size c2 ->
  safe_memcmp s c1 size = safe_memcmp s c2 size.
Proof.
  revert s c1 c2. induction size as [|n IH]; intros s c1 c2 Heq.
  - reflexivity.
  - cbn [safe_memcmp]. destruct c1 as [|a1 r1], c2 as [|a2 r2];
      cbn [firstn] in Heq; try discriminate.
    + reflexivity.
    + injection Heq as -> Hrest. cbn [tl nth].
      rewrite (IH (tl s) r1 r2 Hrest). reflexivity.
Qed.

(** X3: rma_try_authcode looks at the first RMA_AUTHCODE_CHARS bytes of
    the submitted buffer only: two buffers that agree there get the
    same answer and leave the same state. *)
Theorem only_authcode_chars_compared (st : rma_state) (code1 code2 : list Z) :
  firstn RMA_AUTHCODE_CHARS code1 = firstn RMA_AUTHCODE_CHARS code2 ->
  rma_try_authcode cfg st code1 = rma_try_authcode cfg st code2.
Proof.
  intros Heq. unfold rma_try_authcode.
  rewrite (safe_memcmp_prefix _ _ code1 code2 Heq). reflexivity.
Qed.

(** ** Sessions that cannot be verified *)

(** With no try left or no stored authcode, every verification is
    refused until a request for a new challenge succeeds. *)
Lemma disarmed_until_create (calls : list call) (st : rma_state) :
  state_wf cfg st ->
  tries_left st = 0 \/ nth 0 (authcode st) 0 = 0 ->
  Forall try_denied_in (until_create_succeeds (fst (run cfg st calls))).
Proof.
  revert st. induction calls as [|c rest IH]; intros st Hwf H0; simpl.
  - constructor.
  - destruct (step cfg st c) as [rv st1] eqn:Hstep.
    specialize (IH st1).
    destruct (run cfg st1 rest) as [tr st2] eqn:Hrun. simpl in *.
    destruct c as [e|code]; simpl in Hstep.
    + assert (Hwf1 : state_wf cfg st1).
      { replace st1 with (snd (rma_create_challenge cfg st e))
          by (rewrite Hstep; reflexivity).
        apply create_wf. assumption. }
      destruct rv; try (constructor; [intros Hc; discriminate|];
        apply IH; [assumption|];
        apply create_failure in Hstep; [|discriminate];
        destruct Hstep as [_ ->]; right;
        apply cleared_authcode_empty; assumption).
      constructor.
    + rewrite try_disarmed in Hstep by assumption.
      injection Hstep as <- <-.
      constructor; [intros _; reflexivity|]. apply IH; assumption.
Qed.

(** X4: an accepted authcode is single-use: after rma_try_authcode has
    returned EC_SUCCESS, every later rma_try_authcode call, with the
    same code or any other, returns EC_ERROR_ACCESS_DENIED until a
    rma_create_challenge call succeeds. *)
Theorem accepted_code_is_single_use
        (st st' : rma_state) (code : list Z) (calls : list call) :
  state_wf cfg st ->
  rma_try_authcode cfg st code = (EC_SUCCESS, st') ->
  Forall try_denied_in (until_create_succeeds (fst (run cfg st' calls))).
Proof.
  intros Hwf Hok. apply disarmed_until_create.
  - replace st' with (snd (rma_try_authcode cfg st code))
      by (rewrite Hok; reflexivity).
    apply try_wf. assumption.
  - left. eapply try_success_closes. eassumption.
Qed.

(** X5: a rma_create_challenge call that fails, for whatever reason
    (rate limit included), leaves no usable session behind: the stored
    authcode is all zero, tries_left is what it was, and every
    rma_try_authcode call is refused with EC_ERROR_ACCESS_DENIED until
    a rma_create_challenge call succeeds. *)
Theorem failed_create_disarms
        (st st' : rma_state) (e : create_env) (rv : ec_error_list)
        (calls : list call) :
  state_wf cfg st ->
  rma_create_challenge cfg st e = (rv, st') -> rv <> EC_SUCCESS ->
  authcode st' = repeat 0 (sizeof_authcode cfg) /\
  tries_left st' = tries_left st /\
  Forall try_denied_in (until_create_succeeds (fst (run cfg st' calls))).
Proof.
  intros Hwf Hc Hrv.
  assert (Hwf' : state_wf cfg st').
  { replace st' with (snd (rma_create_challenge cfg st e))
      by (rewrite Hc; reflexivity).
    apply create_wf. assumption. }
  apply create_failure in Hc; [|assumption]. destruct Hc as [Ht Ha].
  split; [rewrite Ha; apply memset_full; apply Hwf|].
  split; [assumption|].
  apply disarmed_until_create; [assumption|].
  right. rewrite Ha. apply cleared_authcode_empty. assumption.
Qed.

(** X6: in every state reachable from the initial state, tries_left = 0
    implies that the whole authcode buffer is zero: a locked or closed
    session keeps no trace of the expected code. *)
Theorem no_tries_left_means_zero_authcode (st : rma_state) :
  reachable cfg st -> tries_left st = 0 ->
  authcode st = repeat 0 (sizeof_authcode cfg).
Proof.
  induction 1 as [|st c Hr IH].
  - intros _. reflexivity.
  - pose proof (reachable_wf cfg st Hr) as Hwf.
    destruct (tries_left_invariant cfg st Hr) as [Hrange _].
    unfold MAX_AUTHCODE_TRIES in Hrange.
    destruct c as [e|code]; simpl.
    + destruct (rma_create_challenge cfg st e) as [rv st'] eqn:Hc. simpl.
      destruct rv;
        try (intros _; apply create_failure in Hc; [|discriminate];
             destruct Hc as [_ ->]; apply memset_full; apply Hwf).
      apply create_success in Hc.
      destruct Hc as (bid & ch & ac & _ & _ & _ & ->). simpl.
      unfold MAX_AUTHCODE_TRIES. discriminate.
    + unfold rma_try_authcode.
      destruct (tries_left st =? 0) eqn:Ht; [simpl; assumption|].
      destruct (nth 0 (authcode st) 0 =? 0) eqn:Ha; [simpl; assumption|].
      apply Z.eqb_neq in Ht.
      destruct (negb _); simpl.
      * rewrite sint32_small by lia.
        destruct (tries_left st - 1 =? 0) eqn:Hz; simpl.
        -- intros _. apply memset_full. apply Hwf.
        -- apply Z.eqb_neq in Hz. intros Habs. contradiction.
      * intros _. apply memset_full. apply Hwf.
Qed.

(** ** The rate limit *)

(** Whether a call got past the rate limit decides what becomes of
    last_challenge_time. *)
Lemma create_last_challenge_time (st st' : rma_state) (e : create_env)
      (rv : ec_error_list) :
  rma_create_challenge cfg st e = (rv, st') ->
  (rv = EC_ERROR_TIMEOUT /\
   uint64 (get_time e - last_challenge_time st) < CHALLENGE_INTERVAL /\
   last_challenge_time st' = last_challenge_time st) \/
  (rv <> EC_ERROR_TIMEOUT /\
   CHALLENGE_INTERVAL <= uint64 (get_time e - last_challenge_time st) /\
   last_challenge_time st' = get_time e).
Proof.
  intros H. unfold rma_create_challenge in H. simpl in H.
  destruct (uint64 _ <? CHALLENGE_INTERVAL) eqn:Hlt.
  - apply Z.ltb_lt in Hlt. injection H as <- <-. left. auto.
  - apply Z.ltb_ge in Hlt. right.
    destruct (read_board_id e) as [bid|].
    2:{ injection H as <- <-. split; [discriminate | auto]. }
    destruct (X25519_keypair e) as [pub temp]. simpl in H.
    case_in H.
    2:{ injection H as <- <-. split; [discriminate | auto]. }
    case_in H; injection H as <- <-; (split; [discriminate | auto]).
Qed.

Lemma creates_after_floor (calls : list call) (st : rma_state) (L T : Z) :
  0 <= L -> L <= last_challenge_time st <= T ->
  clock_ordered T calls ->
  Forall (created_after L) (fst (run cfg st calls)).
Proof.
  intros HL. revert st T.
  induction calls as [|c rest IH]; intros st T Hlast Hclock; simpl.
  - constructor.
  - destruct (step cfg st c) as [rv st1] eqn:Hstep.
    destruct (run cfg st1 rest) as [tr st2] eqn:Hrun. simpl.
    destruct c as [e|code]; simpl in Hstep, Hclock.
    + destruct Hclock as [Ht Hrest].
      assert (Hsub : uint64 (get_time e - last_challenge_time st)
                     = get_time e - last_challenge_time st)
        by (apply uint64_small; lia).
      apply create_last_challenge_time in Hstep. rewrite Hsub in Hstep.
      constructor.
      * unfold created_after. destruct rv; try exact I.
        destruct Hstep as [(Habs & _)|(_ & Hge & _)]; [discriminate|]. lia.
      * specialize (IH st1 (get_time e)). rewrite Hrun in IH. apply IH.
        -- destruct Hstep as [(_ & _ & ->)|(_ & _ & ->)]; lia.
        -- assumption.
    + constructor; [exact I|].
      specialize (IH st1 T). rewrite Hrun in IH. apply IH; [|assumption].
      replace st1 with (snd (rma_try_authcode cfg st code))
        by (rewrite Hstep; reflexivity).
      rewrite try_last_challenge_time. assumption.
Qed.

(** X7: two successful rma_create_challenge calls are at least
    CHALLENGE_INTERVAL apart: after a call that succeeded at time t0,
    in any run whose clock readings never go back, every
    rma_create_challenge call that succeeds was made at t0 +
    CHALLENGE_INTERVAL or later, whatever verifications and failed
    requests lie between. *)
Theorem successful_creates_are_spaced
        (st st' : rma_state) (e : create_env) (calls : list call) :
  0 <= get_time e ->
  rma_create_challenge cfg st e = (EC_SUCCESS, st') ->
  clock_ordered (get_time e) calls ->
  Forall (created_after (get_time e)) (fst (run cfg st' calls)).
Proof.
  intros Ht Hc Hclock.
  apply create_last_challenge_time in Hc.
  destruct Hc as [(Habs & _)|(_ & _ & Hlast)]; [discriminate|].
  apply creates_after_floor with (T := get_time e);
    [assumption | rewrite Hlast; lia | assumption].
Qed.

(** X8: a request that passes the rate limit and then fails because
    read_board_id reports an error returns EC_ERROR_UNKNOWN with both
    buffers cleared and tries_left kept, and has already recorded its
    time in last_challenge_time: the next request within
    CHALLENGE_INTERVAL is rate-limited although no challenge was
    issued. *)
Theorem board_id_failure_still_rate_limits
        (st : rma_state) (e e' : create_env) :
  state_wf cfg st ->
  CHALLENGE_INTERVAL <= uint64 (get_time e - last_challenge_time st) ->
  read_board_id e = None ->
  get_time e <= get_time e' < get_time e + CHALLENGE_INTERVAL ->
  rma_create_challenge cfg st e
  = (EC_ERROR_UNKNOWN,
     {| challenge := repeat 0 (sizeof_challenge cfg);
        authcode := repeat 0 (sizeof_authcode cfg);
        tries_left := tries_left st;
        last_challenge_time := get_time e |}) /\
  fst (rma_create_challenge cfg (snd (rma_create_challenge cfg st e)) e')
  = EC_ERROR_TIMEOUT.
Proof.
  intros [Hc Ha] Hge Hbid Hnext.
  assert (Hfirst :
            rma_create_challenge cfg st e
            = (EC_ERROR_UNKNOWN,
               {| challenge := repeat 0 (sizeof_challenge cfg);
                  authcode := repeat 0 (sizeof_authcode cfg);
                  tries_left := tries_left st;
                  last_challenge_time := get_time e |})).
  { unfold rma_create_challenge. simpl.
    apply Z.ltb_ge in Hge. rewrite Hge, Hbid.
    unfold set_last_challenge_time. simpl.
    rewrite !memset_full by assumption. reflexivity. }
  split; [assumption|].
  rewrite Hfirst. cbn [snd].
  rewrite create_rate_limited; [reflexivity|].
  cbn [last_challenge_time].
  rewrite uint64_small; unfold CHALLENGE_INTERVAL, SECOND in *; lia.
Qed.

(** X9: the rate limit compares the unsigned 64-bit difference of the
    clock and last_challenge_time: a clock reading that lies before
    last_challenge_time, by no more than 2^64 - CHALLENGE_INTERVAL,
    wraps to a large difference and is not rate-limited. *)
Theorem clock_before_last_challenge_not_limited
        (st : rma_state) (e : create_env) :
  0 <= get_time e < last_challenge_time st ->
  last_challenge_time st - get_time e <= 2 ^ 64 - CHALLENGE_INTERVAL ->
  fst (rma_create_challenge cfg st e) <> EC_ERROR_TIMEOUT /\
  last_challenge_time (snd (rma_create_challenge cfg st e)) = get_time e.
Proof.
  intros Ht Hgap.
  destruct (rma_create_challenge cfg st e) as [rv st'] eqn:Hc. cbn [fst snd].
  apply create_last_challenge_time in Hc.
  destruct Hc as [(_ & Hlt & _)|(Hrv & _ & Hlast)]; [|auto].
  exfalso. unfold uint64 in Hlt.
  replace (get_time e - last_challenge_time st)
    with (get_time e - last_challenge_time st + 2 ^ 64 + (-1) * 2 ^ 64)
    in Hlt by lia.
  rewrite Z.mod_add in Hlt by lia.
  rewrite Z.mod_small in Hlt;
    unfold CHALLENGE_INTERVAL, SECOND in *; lia.
Qed.

(** ** A challenge and its authcode *)

Lemma create_success_authcode_head (st st' : rma_state) (e : create_env) :
  rma_create_challenge cfg st e = (EC_SUCCESS, st') ->
  nth 0 (authcode st') 0 <> 0.
Proof.
  intros Hc. apply create_success in Hc.
  destruct Hc as (bid & ch & ac & _ & _ & Hac & ->). cbn [authcode].
  apply base32_encode_text in Hac. cbv zeta in Hac.
  rewrite encoded_symbols_plain in Hac.
  replace (RMA_AUTHCODE_CHARS * 5)%nat with 40%nat in Hac by reflexivity.
  set (tag := get_hmac_sha256 _ _ _ _) in *.
  assert (Hn : length (map Base32.base32_char (Base32.data_symbols tag 40))
               = 8%nat).
  { rewrite length_map. unfold Base32.data_symbols.
    rewrite symbols_length. reflexivity. }
  rewrite Hn in Hac. destruct Hac as (Htext & _ & _).
  rewrite <- (nth_firstn_lt ac 8 0) by lia. rewrite Htext.
  unfold Base32.data_symbols.
  change ((40 + 4) / 5)%nat with 8%nat. cbn [Base32.symbols map nth].
  apply base32_char_alphabet. apply symbol_of_bits_range.
Qed.

(** X10: a challenge can be answered: right after a successful
    rma_create_challenge, a buffer that starts with the
    RMA_AUTHCODE_CHARS characters of the stored authcode is accepted by
    rma_try_authcode, which closes the session. *)
Theorem stored_authcode_is_accepted
        (st st' : rma_state) (e : create_env) (code : list Z) :
  state_wf cfg st ->
  rma_create_challenge cfg st e = (EC_SUCCESS, st') ->
  firstn RMA_AUTHCODE_CHARS code = firstn RMA_AUTHCODE_CHARS (authcode st') ->
  rma_try_authcode cfg st' code = (EC_SUCCESS, session_closed cfg st').
Proof.
  intros Hwf Hc Hcode.
  assert (Hwf' : state_wf cfg st').
  { replace st' with (snd (rma_create_challenge cfg st e))
      by (rewrite Hc; reflexivity).
    apply create_wf. assumption. }
  apply matching_code_ends_session_aux; try assumption.
  - apply create_success in Hc.
    destruct Hc as (bid & ch & ac & _ & _ & _ & ->). discriminate.
  - eapply create_success_authcode_head. eassumption.
  - intros i Hi.
    rewrite <- (nth_firstn_lt (authcode st') RMA_AUTHCODE_CHARS i Hi).
    rewrite <- Hcode. apply nth_firstn_lt. assumption.
Qed.

(** ** Replies of the vendor command *)

Lemma firstn_app_exact (a b : list Z) (k : nat) :
  length a = k -> firstn k (a ++ b) = a.
Proof.
  intros <-. rewrite firstn_app, firstn_all, Nat.sub_diag.
  apply app_nil_r.
Qed.

Lemma skipn_app_exact (a b : list Z) (k : nat) :
  length a = k -> skipn k (a ++ b) = b.
Proof.
  intros <-. rewrite skipn_app, skipn_all, Nat.sub_diag. reflexivity.
Qed.

(** X11: a create-challenge request with enough room that succeeds
    returns VENDOR_RC_SUCCESS with a reply of sizeof(challenge) - 1
    bytes, the stored challenge buffer without its last byte; the rest
    of the command buffer is untouched and the state is the one
    rma_create_challenge left. *)
Theorem get_challenge_reply_on_success
        (st st' : rma_state) (e : create_env) (buf : list Z) (n : nat) :
  state_wf cfg st ->
  (sizeof_challenge cfg <= n)%nat ->
  rma_create_challenge cfg st e = (EC_SUCCESS, st') ->
  snd (rma_challenge_response cfg st e buf 0 n) = st' /\
  vr_rc (fst (rma_challenge_response cfg st e buf 0 n))
  = vendor_value cfg VENDOR_RC_SUCCESS /\
  vr_size (fst (rma_challenge_response cfg st e buf 0 n))
  = (sizeof_challenge cfg - 1)%nat /\
  firstn (sizeof_challenge cfg - 1)
         (vr_buf (fst (rma_challenge_response cfg st e buf 0 n)))
  = firstn (sizeof_challenge cfg - 1) (challenge st') /\
  skipn (sizeof_challenge cfg - 1)
        (vr_buf (fst (rma_challenge_response cfg st e buf 0 n)))
  = skipn (sizeof_challenge cfg - 1) buf.
Proof.
  intros Hwf Hn Hc.
  assert (Hwf' : state_wf cfg st').
  { replace st' with (snd (rma_create_challenge cfg st e))
      by (rewrite Hc; reflexivity).
    apply create_wf. assumption. }
  destruct Hwf' as [Hlen _].
  unfold rma_challenge_response, get_challenge. cbn [Nat.eqb].
  apply Nat.ltb_ge in Hn. rewrite Hn, Hc.
  cbn [ec_eqb negb fst snd vr_rc vr_size vr_buf].
  unfold rma_get_challenge, memcpy.
  assert (Hk : length (firstn (sizeof_challenge cfg - 1) (challenge st'))
               = (sizeof_challenge cfg - 1)%nat)
    by (rewrite length_firstn; lia).
  repeat split.
  - apply firstn_app_exact. assumption.
  - apply skipn_app_exact. assumption.
Qed.

(** X12: a create-challenge request with enough room whose
    rma_create_challenge fails answers with one byte, and that byte,
    also the handler's return value, is the EC error code of
    rma_create_challenge truncated to 8 bits (EC_ERROR_TIMEOUT or
    EC_ERROR_UNKNOWN), not a vendor_cmd_rc constant; nothing is printed
    and the rest of the buffer is untouched. *)
Theorem get_challenge_reply_on_failure
        (st st' : rma_state) (e : create_env) (rv : ec_error_list)
        (buf : list Z) (n : nat) :
  (sizeof_challenge cfg <= n)%nat -> buf <> [] ->
  rma_create_challenge cfg st e = (rv, st') -> rv <> EC_SUCCESS ->
  rma_challenge_response cfg st e buf 0 n
  = ({| vr_rc := uint8 (ec_value cfg rv);
        vr_buf := uint8 (ec_value cfg rv) :: tl buf;
        vr_size := 1;
        vr_console := [] |}, st') /\
  (rv = EC_ERROR_TIMEOUT \/ rv = EC_ERROR_UNKNOWN).
Proof.
  intros Hn Hbuf Hc Hrv.
  unfold rma_challenge_response, get_challenge. cbn [Nat.eqb].
  apply Nat.ltb_ge in Hn. rewrite Hn, Hc.
  destruct buf as [|b rest]; [contradiction|].
  split.
  - destruct rv; try reflexivity. contradiction.
  - unfold rma_create_challenge in Hc. simpl in Hc.
    repeat case_in Hc; injection Hc as <- _;
      first [solve [auto] | exfalso; apply Hrv; reflexivity].
Qed.

(** X13: a verify request of exactly RMA_AUTHCODE_CHARS bytes leaves the
    state rma_try_authcode leaves.  When the code is accepted the reply
    is empty, the return value is VENDOR_RC_SUCCESS and the buffer is
    untouched; in every other case, a wrong code as well as a refused
    attempt, the reply is the single byte VENDOR_RC_INTERNAL_ERROR, so
    that the two cannot be told apart from the reply. *)
Theorem process_response_reply
        (st st' : rma_state) (e : create_env) (rv : ec_error_list)
        (buf : list Z) (response_size : nat) :
  buf <> [] ->
  rma_try_authcode cfg st buf = (rv, st') ->
  rma_challenge_response cfg st e buf RMA_AUTHCODE_CHARS response_size
  = (if ec_eqb rv EC_SUCCESS
     then {| vr_rc := vendor_value cfg VENDOR_RC_SUCCESS;
             vr_buf := buf;
             vr_size := 0;
             vr_console := [CPRINTF "%s: success!\n"
                                    [ArgStr "process_response"]] |}
     else {| vr_rc := uint8 (vendor_value cfg VENDOR_RC_INTERNAL_ERROR);
             vr_buf := uint8 (vendor_value cfg VENDOR_RC_INTERNAL_ERROR)
                         :: tl buf;
             vr_size := 1;
             vr_console := [CPRINTF "%s: authcode mismatch\n"
                                    [ArgStr "process_response"]] |},
     st').
Proof.
  intros Hbuf Htry.
  unfold rma_challenge_response, process_response.
  cbn [Nat.eqb RMA_AUTHCODE_CHARS negb]. rewrite Htry.
  destruct buf as [|b rest]; [contradiction|].
  destruct (ec_eqb rv EC_SUCCESS); reflexivity.
Qed.

End SessionProperties.

(** * More concrete runs *)

Section SessionRuns.

Import TestPlatform TestInputs.

Lemma st_armed_wf : state_wf test_cfg st_armed.
Proof. split; vm_compute; reflexivity. Defined.

Lemma initial_wf : state_wf test_cfg (initial_state test_cfg).
Proof. split; vm_compute; reflexivity. Defined.

Lemma st_armed_tries : tries_left st_armed <> 0.
Proof. vm_compute. discriminate. Defined.

Lemma st_armed_head : nth 0 (authcode st_armed) 0 <> 0.
Proof. vm_compute. discriminate. Defined.

Lemma right_code_matches (i : nat) :
  (i < RMA_AUTHCODE_CHARS)%nat ->
  nth i (authcode st_armed) 0 = nth i right_code_buf 0.
Proof.
  intros Hi.
  do 8 (destruct i as [|i]; [vm_compute; reflexivity|]).
  unfold RMA_AUTHCODE_CHARS in Hi. lia.
Defined.

Lemma second_create_limited :
  rma_create_challenge test_cfg st_armed env_105s
  = (EC_ERROR_TIMEOUT, st_limited).
Proof. vm_compute. reflexivity. Defined.

Lemma st_wrong3_reachable : reachable test_cfg st_wrong3.
Proof.
  apply (reachable_step test_cfg st_wrong2 (Try wrong_code)).
  apply (reachable_step test_cfg st_wrong1 (Try wrong_code)).
  apply (reachable_step test_cfg st_armed (Try wrong_code)).
  apply st_armed_reachable.
Defined.

Lemma matching_code_witness :
  rma_try_authcode test_cfg st_armed right_code_buf
  = (EC_SUCCESS, session_closed test_cfg st_armed).
Proof.
  apply (@matching_code_ends_session test_cfg
           st_armed right_code_buf
           st_armed_wf st_armed_tries st_armed_head right_code_matches).
Defined.

Lemma mismatch_witness :
  (0 < tries_left st_armed < 2 ^ 31 /\
   nth 0 (authcode st_armed) 0 <> nth 0 wrong_code_buf 0) /\
  rma_try_authcode test_cfg st_armed wrong_code_buf
  = (EC_ERROR_INVAL,
     if tries_left st_armed =? 1 then session_closed test_cfg st_armed
     else set_tries_left st_armed (tries_left st_armed - 1)).
Proof.
  assert (Ht : 0 < tries_left st_armed < 2 ^ 31)
    by (vm_compute; split; reflexivity).
  assert (Hi : (0 < RMA_AUTHCODE_CHARS)%nat)
    by (unfold RMA_AUTHCODE_CHARS; lia).
  assert (Hd : nth 0 (authcode st_armed) 0 <> nth 0 wrong_code_buf 0)
    by (vm_compute; discriminate).
  split; [split; assumption|].
  apply (@mismatch_costs_one_try test_cfg
           st_armed wrong_code_buf 0%nat
           st_armed_wf Ht st_armed_head Hi Hd).
Defined.

Lemma only_authcode_chars_witness :
  firstn RMA_AUTHCODE_CHARS right_code_buf
  = firstn RMA_AUTHCODE_CHARS (firstn 8 (authcode st_armed) ++ [0; 0]) /\
  rma_try_authcode test_cfg st_armed right_code_buf
  = rma_try_authcode test_cfg st_armed
      (firstn 8 (authcode st_armed) ++ [0; 0]).
Proof.
  assert (Heq : firstn RMA_AUTHCODE_CHARS right_code_buf
                = firstn RMA_AUTHCODE_CHARS
                    (firstn 8 (authcode st_armed) ++ [0; 0]))
    by (vm_compute; reflexivity).
  split; [exact Heq|].
  apply (@only_authcode_chars_compared test_cfg
           st_armed right_code_buf _ Heq).
Defined.

Lemma single_use_witness :
  rma_try_authcode test_cfg st_armed right_code_buf
  = (EC_SUCCESS, session_closed test_cfg st_armed) /\
  Forall try_denied_in
         (until_create_succeeds
            (fst (run test_cfg (session_closed test_cfg st_armed)
                      [Try right_code_buf; Create env_105s;
                       Try right_code_buf]))).
Proof.
  assert (Hok : rma_try_authcode test_cfg st_armed right_code_buf
                = (EC_SUCCESS, session_closed test_cfg st_armed))
    by (vm_compute; reflexivity).
  split; [exact Hok|].
  apply (@accepted_code_is_single_use test_primitives test_cfg
           st_armed (session_closed test_cfg st_armed) right_code_buf
           [Try right_code_buf; Create env_105s; Try right_code_buf]
           st_armed_wf Hok).
Defined.

Lemma failed_create_witness :
  (rma_create_challenge test_cfg st_armed env_105s
   = (EC_ERROR_TIMEOUT, st_limited) /\
   EC_ERROR_TIMEOUT <> EC_SUCCESS) /\
  authcode st_limited = repeat 0 (sizeof_authcode test_cfg) /\
  tries_left st_limited = tries_left st_armed /\
  Forall try_denied_in
         (until_create_succeeds
            (fst (run test_cfg st_limited [Try right_code_buf]))).
Proof.
  assert (Hrv : EC_ERROR_TIMEOUT <> EC_SUCCESS) by discriminate.
  split; [split; [exact second_create_limited | exact Hrv]|].
  apply (@failed_create_disarms test_primitives test_cfg
           st_armed st_limited env_105s EC_ERROR_TIMEOUT
           [Try right_code_buf]
           st_armed_wf second_create_limited Hrv).
Defined.

Lemma no_tries_left_witness :
  (reachable test_cfg st_wrong3 /\ tries_left st_wrong3 = 0) /\
  authcode st_wrong3 = repeat 0 (sizeof_authcode test_cfg).
Proof.
  assert (H0 : tries_left st_wrong3 = 0) by (vm_compute; reflexivity).
  split; [split; [exact st_wrong3_reachable | exact H0]|].
  apply (@no_tries_left_means_zero_authcode test_primitives test_cfg
           st_wrong3 st_wrong3_reachable H0).
Defined.

Lemma spaced_creates_witness :
  clock_ordered (get_time env_100s)
                [Create env_105s; Try wrong_code; Create env_111s] /\
  Forall (created_after (get_time env_100s))
         (fst (run test_cfg st_armed
                   [Create env_105s; Try wrong_code; Create env_111s])).
Proof.
  assert (Ht : 0 <= get_time env_100s) by (vm_compute; discriminate).
  assert (Hclock : clock_ordered (get_time env_100s)
                     [Create env_105s; Try wrong_code; Create env_111s]).
  { cbn [clock_ordered]. repeat split; vm_compute; congruence. }
  split; [exact Hclock|].
  apply (@successful_creates_are_spaced test_primitives test_cfg
           (initial_state test_cfg) st_armed env_100s
           [Create env_105s; Try wrong_code; Create env_111s]
           Ht first_create_succeeds Hclock).
Defined.

Lemma board_id_failure_witness :
  (CHALLENGE_INTERVAL
   <= uint64 (get_time env_no_board_id - last_challenge_time st_armed) /\
   read_board_id env_no_board_id = None) /\
  rma_create_challenge test_cfg st_armed env_no_board_id
  = (EC_ERROR_UNKNOWN,
     {| challenge := repeat 0 (sizeof_challenge test_cfg);
        authcode := repeat 0 (sizeof_authcode test_cfg);
        tries_left := tries_left st_armed;
        last_challenge_time := get_time env_no_board_id |}) /\
  fst (rma_create_challenge test_cfg
         (snd (rma_create_challenge test_cfg st_armed env_no_board_id))
         (test_env (205 * SECOND) 13))
  = EC_ERROR_TIMEOUT.
Proof.
  assert (Hge : CHALLENGE_INTERVAL
                <= uint64 (get_time env_no_board_id
                           - last_challenge_time st_armed))
    by (vm_compute; discriminate).
  assert (Hnext : get_time env_no_board_id
                  <= get_time (test_env (205 * SECOND) 13)
                  < get_time env_no_board_id + CHALLENGE_INTERVAL)
    by (vm_compute; split; congruence).
  split; [split; [exact Hge | reflexivity]|].
  apply (@board_id_failure_still_rate_limits test_primitives test_cfg
           st_armed env_no_board_id (test_env (205 * SECOND) 13)
           st_armed_wf Hge eq_refl Hnext).
Defined.

Lemma clock_before_witness :
  (0 <= get_time env_50s < last_challenge_time st_armed /\
   last_challenge_time st_armed - get_time env_50s
   <= 2 ^ 64 - CHALLENGE_INTERVAL) /\
  fst (rma_create_challenge test_cfg st_armed env_50s) <> EC_ERROR_TIMEOUT /\
  last_challenge_time (snd (rma_create_challenge test_cfg st_armed env_50s))
  = get_time env_50s.
Proof.
  assert (Ht : 0 <= get_time env_50s < last_challenge_time st_armed)
    by (vm_compute; split; congruence).
  assert (Hgap : last_challenge_time st_armed - get_time env_50s
                 <= 2 ^ 64 - CHALLENGE_INTERVAL)
    by (vm_compute; discriminate).
  split; [split; assumption|].
  apply (@clock_before_last_challenge_not_limited test_primitives test_cfg
           st_armed env_50s Ht Hgap).
Defined.

Lemma stored_authcode_witness :
  firstn RMA_AUTHCODE_CHARS right_code_buf
  = firstn RMA_AUTHCODE_CHARS (authcode st_armed) /\
  rma_try_authcode test_cfg st_armed right_code_buf
  = (EC_SUCCESS, session_closed test_cfg st_armed).
Proof.
  assert (Hcode : firstn RMA_AUTHCODE_CHARS right_code_buf
                  = firstn RMA_AUTHCODE_CHARS (authcode st_armed))
    by (vm_compute; reflexivity).
  split; [exact Hcode|].
  apply (@stored_authcode_is_accepted test_primitives test_cfg
           (initial_state test_cfg) st_armed env_100s right_code_buf
           initial_wf first_create_succeeds Hcode).
Defined.

Lemma reply_on_success_witness :
  (sizeof_challenge test_cfg <= 128)%nat /\
  snd (rma_challenge_response test_cfg (initial_state test_cfg) env_100s
         (repeat 170 128) 0 128) = st_armed /\
  vr_rc (fst (rma_challenge_response test_cfg (initial_state test_cfg)
                env_100s (repeat 170 128) 0 128))
  = vendor_value test_cfg VENDOR_RC_SUCCESS /\
  vr_size (fst (rma_challenge_response test_cfg (initial_state test_cfg)
                  env_100s (repeat 170 128) 0 128))
  = (sizeof_challenge test_cfg - 1)%nat /\
  firstn (sizeof_challenge test_cfg - 1)
         (vr_buf (fst (rma_challenge_response test_cfg
                         (initial_state test_cfg) env_100s
                         (repeat 170 128) 0 128)))
  = firstn (sizeof_challenge test_cfg - 1) (challenge st_armed) /\
  skipn (sizeof_challenge test_cfg - 1)
        (vr_buf (fst (rma_challenge_response test_cfg
                        (initial_state test_cfg) env_100s
                        (repeat 170 128) 0 128)))
  = skipn (sizeof_challenge test_cfg - 1) (repeat 170 128).
Proof.
  assert (Hn : (sizeof_challenge test_cfg <= 128)%nat) by (vm_compute; lia).
  split; [exact Hn|].
  apply (@get_challenge_reply_on_success test_primitives test_cfg
           (initial_state test_cfg) st_armed env_100s (repeat 170 128)
           128%nat initial_wf Hn first_create_succeeds).
Defined.

Lemma reply_on_failure_witness :
  ((sizeof_challenge test_cfg <= 128)%nat /\ repeat 170 128 <> []) /\
  rma_challenge_response test_cfg st_armed env_105s (repeat 170 128) 0 128
  = ({| vr_rc := uint8 (ec_value test_cfg EC_ERROR_TIMEOUT);
        vr_buf := uint8 (ec_value test_cfg EC_ERROR_TIMEOUT)
                    :: tl (repeat 170 128);
        vr_size := 1;
        vr_console := [] |}, st_limited) /\
  (EC_ERROR_TIMEOUT = EC_ERROR_TIMEOUT \/ EC_ERROR_TIMEOUT = EC_ERROR_UNKNOWN).
Proof.
  assert (Hn : (sizeof_challenge test_cfg <= 128)%nat) by (vm_compute; lia).
  assert (Hbuf : repeat 170 128 <> []) by discriminate.
  assert (Hrv : EC_ERROR_TIMEOUT <> EC_SUCCESS) by discriminate.
  split; [split; assumption|].
  apply (@get_challenge_reply_on_failure test_primitives test_cfg
           st_armed st_limited env_105s EC_ERROR_TIMEOUT (repeat 170 128)
           128%nat Hn Hbuf second_create_limited Hrv).
Defined.

Lemma process_response_witness :
  (wrong_code_buf <> [] /\
   rma_try_authcode test_cfg st_armed wrong_code_buf
   = (EC_ERROR_INVAL, set_tries_left st_armed 2)) /\
  rma_challenge_response test_cfg st_armed env_105s wrong_code_buf
                         RMA_AUTHCODE_CHARS 16
  = (if ec_eqb EC_ERROR_INVAL EC_SUCCESS
     then {| vr_rc := vendor_value test_cfg VENDOR_RC_SUCCESS;
             vr_buf := wrong_code_buf;
             vr_size := 0;
             vr_console := [CPRINTF "%s: success!\n"
                                    [ArgStr "process_response"]] |}
     else {| vr_rc := uint8 (vendor_value test_cfg VENDOR_RC_INTERNAL_ERROR);
             vr_buf := uint8 (vendor_value test_cfg VENDOR_RC_INTERNAL_ERROR)
                         :: tl wrong_code_buf;
             vr_size := 1;
             vr_console := [CPRINTF "%s: authcode mismatch\n"
                                    [ArgStr "process_response"]] |},
     set_tries_left st_armed 2).
Proof.
  assert (Hbuf : wrong_code_buf <> []) by discriminate.
  assert (Htry : rma_try_authcode test_cfg st_armed wrong_code_buf
                 = (EC_ERROR_INVAL, set_tries_left st_armed 2))
    by (vm_compute; reflexivity).
  split; [split; assumption|].
  apply (@process_response_reply test_primitives test_cfg
           st_armed (set_tries_left st_armed 2) env_105s EC_ERROR_INVAL
           wrong_code_buf 16%nat Hbuf Htry).
Defined.

End SessionRuns.
